(** * Ring network: lattice builder and ring collapser

    A shallow embedding of [ring_network.py]: [create_network] (the lattice
    builder), [show_node_counts], [prune_markers_minimal] (the ring
    collapser) and [construct_net].

    Modelling choices, stated once:
    - numpy's float64 values, the weights and the window size are exact
      rationals ([Qc], canonical fractions, so that equality of graphs is
      Leibniz equality).  Arithmetic is therefore exact; there is no NaN and
      no infinity.  Division by a zero window, which numpy turns into
      inf/nan and [int()] then rejects, is modelled by the exception that
      [int()] raises.
    - a [networkx.Graph] is its two insertion-ordered dictionaries, [_node]
      and [_adj], as association lists: the order of [G.nodes()] and of
      [G.neighbors(n)] is the insertion order, and the collapser depends on
      it.  Every [add_edge] call of the source passes [weight=], so an edge
      datum is its weight.
    - a node is a Python [int] (a data row) or a [str] (a marker key). *)

From Stdlib Require Import QArith Qcanon Qround Qabs Qcabs ZArith Lia Lqa.
From Stdlib Require Import Ascii String Sorted.
From stdpp Require Import base decidable list strings pretty numbers.

Local Open Scope list_scope.

(** ** Python exceptions and the error monad *)

Inductive exn : Type :=
  | ValueError
  | IndexError
  | OverflowError.

Definition result (A : Type) : Type := exn + A.

Definition ret {A} (a : A) : result A := inr a.
Definition raise {A} (e : exn) : result A := inl e.
Definition bind {A B} (m : result A) (k : A -> result B) : result B :=
  match m with
  | inl e => inl e
  | inr a => k a
  end.

Notation "'let*' x := m 'in' k" := (bind m (fun x => k))
  (at level 10, x name, m at level 100, k at level 200, only parsing).

(** A monadic left fold: a [for] loop whose body may raise. *)
Fixpoint foldM {A B} (f : A -> B -> result A) (l : list B) (a : A) : result A :=
  match l with
  | [] => ret a
  | b :: l' => let* a' := f a b in foldM f l' a'
  end.

(** ** Insertion-ordered dictionaries *)

Section alist.
Context {K V : Type} `{EqDecision K}.

Fixpoint alist_get (k : K) (l : list (K * V)) : option V :=
  match l with
  | [] => None
  | (k', v) :: l' => if decide (k = k') then Some v else alist_get k l'
  end.

(** [d[k] = v]: an existing key keeps its position, a new key goes last. *)
Fixpoint alist_set (k : K) (v : V) (l : list (K * V)) : list (K * V) :=
  match l with
  | [] => [(k, v)]
  | (k', v') :: l' =>
      if decide (k = k') then (k, v) :: l' else (k', v') :: alist_set k v l'
  end.

Definition alist_mem (k : K) (l : list (K * V)) : bool :=
  match alist_get k l with Some _ => true | None => false end.

Definition alist_keys (l : list (K * V)) : list K := map fst l.
End alist.

(** ** Numbers *)

Definition Qc_of_nat (i : nat) : Qc := Qc_of_Z (Z.of_nat i).

(** Python's [int(x)] on a finite float truncates toward zero. *)
Definition py_int (q : Qc) : Z := Z.quot (Qnum (this q)) (Zpos (Qden (this q))).

(** [int(num / den)] with numpy operands: a zero divisor gives nan (0/0) or
    an infinity, and [int] raises [ValueError] or [OverflowError] on them. *)
Definition py_int_div (num den : Qc) : result Z :=
  if decide (den = 0%Qc) then
    (if decide (num = 0%Qc) then raise ValueError else raise OverflowError)
  else ret (py_int (num / den)%Qc).

Definition Qc_max (a b : Qc) : Qc := if decide (a ≤ b)%Qc then b else a.
Definition Qc_min (a b : Qc) : Qc := if decide (a ≤ b)%Qc then a else b.

(** [np.max] and [np.min] of a column; an empty column raises [ValueError]. *)
Definition np_max (l : list Qc) : result Qc :=
  match l with
  | [] => raise ValueError
  | x :: l' => ret (fold_left Qc_max l' x)
  end.

Definition np_min (l : list Qc) : result Qc :=
  match l with
  | [] => raise ValueError
  | x :: l' => ret (fold_left Qc_min l' x)
  end.

(** [l[i]] for a Python list and an integer index: negative indices count
    from the end, anything out of range raises [IndexError]. *)
Definition py_index {A} (l : list A) (i : Z) : result A :=
  let j := if decide (i < 0)%Z then (Z.of_nat (length l) + i)%Z else i in
  if decide (j < 0)%Z then raise IndexError
  else match l !! Z.to_nat j with
       | Some a => ret a
       | None => raise IndexError
       end.

(** ** Marker keys: [f'{dim},{value:.4f}'] *)

(** Rounding to the nearest integer, ties to even: the rule of Python's
    fixed-precision float formatting. *)
Definition round_half_even (q : Qc) : Z :=
  let f := Qfloor (this q) in
  let r := (q - Qc_of_Z f)%Qc in
  let half := Q2Qc (1 # 2) in
  if decide (r < half)%Qc then f
  else if decide (half < r)%Qc then (f + 1)%Z
  else if Z.even f then f else (f + 1)%Z.

(** The four decimals of a fraction [k / 10000], zero-padded. *)
Definition pad4 (k : N) : string :=
  String (pretty_N_char ((k `div` 1000) `mod` 10)%N)
    (String (pretty_N_char ((k `div` 100) `mod` 10)%N)
       (String (pretty_N_char ((k `div` 10) `mod` 10)%N)
          (String (pretty_N_char (k `mod` 10)%N) ""))).

(** [f'{v:.4f}']: sign, integer part, point, four decimals.  A negative
    value keeps its sign even when it rounds to zero. *)
Definition fmt4 (v : Qc) : string :=
  let r := Z.to_N (round_half_even (Qcabs v * Qc_of_Z 10000)%Qc) in
  (if decide (v < 0)%Qc then "-" else "") +:+
  pretty (r `div` 10000)%N +:+ "." +:+ pad4 (r `mod` 10000)%N.

Definition marker_name (dim : nat) (v : Qc) : string :=
  pretty dim +:+ "," +:+ fmt4 v.

(** ** Graphs *)

Inductive node : Type :=
  | Row (i : nat)
  | Marker (name : string).

Global Instance node_eq_dec : EqDecision node.
Proof. solve_decision. Defined.

(** [isinstance(n, int)] *)
Definition is_row (n : node) : bool :=
  match n with Row _ => true | Marker _ => false end.

(** The attribute dictionary of a node: empty for a data row,
    [marker=True, dim=.., value=..] for a marker. *)
Record marker_attr : Type := MarkerAttr { m_dim : nat; m_value : Qc }.

Definition node_attr : Type := option marker_attr.

Record Graph : Type := MkGraph {
  g_node : list (node * node_attr);
  g_adj : list (node * list (node * Qc))
}.

Definition empty_graph : Graph := MkGraph [] [].

Definition has_node (G : Graph) (n : node) : bool := alist_mem n (g_node G).

(** [G[n]]: the adjacency dictionary of [n] *)
Definition adj_of (G : Graph) (n : node) : list (node * Qc) :=
  default [] (alist_get n (g_adj G)).

(** [G.neighbors(n)], in insertion order *)
Definition neighbors (G : Graph) (n : node) : list node :=
  alist_keys (adj_of G n).

Definition has_edge (G : Graph) (u v : node) : bool := alist_mem v (adj_of G u).

(** [G[u][v]['weight']] *)
Definition edge_weight (G : Graph) (u v : node) : option Qc :=
  alist_get v (adj_of G u).

(** [G.add_node(n, **attr)]: a new node gets an empty adjacency dictionary;
    keyword attributes, when given, update the node's attribute dictionary. *)
Definition add_node (G : Graph) (n : node) (attr : node_attr) : Graph :=
  match alist_get n (g_node G) with
  | None => MkGraph (alist_set n attr (g_node G)) (alist_set n [] (g_adj G))
  | Some old =>
      match attr with
      | None => G
      | Some a => MkGraph (alist_set n (Some a) (g_node G)) (g_adj G)
      end
  end.

(** [self._adj[u][v] = datadict] *)
Definition adj_set (G : Graph) (u v : node) (w : Qc) : Graph :=
  MkGraph (g_node G) (alist_set u (alist_set v w (adj_of G u)) (g_adj G)).

(** The two directions of an edge share one datum:
    [self._adj[u][v] = datadict; self._adj[v][u] = datadict]. *)
Definition set_edge (G : Graph) (u v : node) (w : Qc) : Graph :=
  adj_set (adj_set G u v w) v u w.

(** [G.add_edge(u, v, weight=w)]: missing endpoints are created, then the
    edge datum is stored under both directions. *)
Definition add_edge (G : Graph) (u v : node) (w : Qc) : Graph :=
  let G1 := add_node G u None in
  let G2 := add_node G1 v None in
  set_edge G2 u v w.

(** [G.edges(data='weight')]: every undirected edge once, from the endpoint
    that comes first in node order. *)
Fixpoint edges_from (adj : list (node * list (node * Qc))) (seen : list node)
  : list (node * node * Qc) :=
  match adj with
  | [] => []
  | (n, nbrs) :: adj' =>
      map (fun '(v, w) => (n, v, w))
          (filter (fun p => bool_decide (p.1 ∉ seen)) nbrs)
      ++ edges_from adj' (n :: seen)
  end.

Definition edges (G : Graph) : list (node * node * Qc) := edges_from (g_adj G) [].

(** ** The lattice builder *)

Record ndarray : Type := MkArray {
  ncols : nat;                 (* data.shape[1] *)
  rows : list (list Qc)        (* data.shape[0] = length rows *)
}.

Definition wf_array (data : ndarray) : Prop :=
  Forall (fun r => length r = ncols data) (rows data).

(** [data[:, dim]] *)
Definition column (data : ndarray) (dim : nat) : list Qc :=
  map (fun r => nth dim r 0%Qc) (rows data).

(** Line 21: [[window_size * i + min_value for i in range(n+1)]] *)
Definition marker_values (window_size min_value : Qc) (n : Z) : list Qc :=
  map (fun i => (window_size * Qc_of_nat i + min_value)%Qc)
      (seq 0 (Z.to_nat (n + 1))).

(** Lines 23-25: the chain of marker nodes and chain edges. *)
Definition add_chain (dim : nat) (weight : Qc) (markers : list Qc) (n : Z)
    (G : Graph) : Graph :=
  fold_left (fun G i =>
      let G := add_node G (Marker (marker_name dim (nth i markers 0%Qc)))
                 (Some (MarkerAttr dim (nth i markers 0%Qc))) in
      add_edge G (Marker (marker_name dim (nth (i - 1) markers 0%Qc)))
                 (Marker (marker_name dim (nth i markers 0%Qc))) weight)
    (seq 1 (Z.to_nat n)) G.

(** Lines 28-31: one assignment edge per row. *)
Definition assign_rows (data : ndarray) (dim : nat) (weight : Qc)
    (markers : list Qc) (min_value window_size : Qc) (G : Graph) : result Graph :=
  foldM (fun G ip =>
      let point_value := nth dim ip.2 0%Qc in
      let* k := py_int_div (point_value - min_value)%Qc window_size in
      let* lower_marker := py_index markers k in
      ret (add_edge G (Row ip.1) (Marker (marker_name dim lower_marker)) weight))
    (imap (fun i point => (i, point)) (rows data)) G.

(** One iteration of the loop over the dimensions (lines 12-31). *)
Definition add_dimension (data : ndarray) (weights : list Qc) (window_size : Qc)
    (G : Graph) (dim : nat) : result Graph :=
  let* weight := match weights !! dim with
                 | Some w => ret w
                 | None => raise IndexError
                 end in
  let dim_values := column data dim in
  let* max_value := np_max dim_values in
  let* min_value := np_min dim_values in
  let* k := py_int_div (max_value - min_value)%Qc window_size in
  let n := (k + 1)%Z in
  let markers := marker_values window_size min_value n in
  let* m0 := py_index markers 0%Z in
  let G := add_node G (Marker (marker_name dim m0)) (Some (MarkerAttr dim m0)) in
  let G := add_chain dim weight markers n G in
  assign_rows data dim weight markers min_value window_size G.

Definition create_network (data : ndarray) (weights : list Qc) (window_size : Qc)
  : result Graph :=
  let G := fold_left (fun G i => add_node G (Row i) None)
             (seq 0 (length (rows data))) empty_graph in
  foldM (add_dimension data weights window_size) (seq 0 (ncols data)) G.

(** ** Node counts (the diagnostic utility, without its printing) *)

(** [d.get('marker', False)] *)
Definition is_marker (d : node_attr) : bool :=
  match d with Some _ => true | None => false end.

Record node_counts : Type := MkCounts {
  data_nodes : nat;
  marker_nodes : nat;
  markers_by_dim : list (nat * nat)
}.

Definition show_node_counts (G : Graph) : node_counts :=
  let num_data := length (filter (fun nd => negb (is_marker nd.2)) (g_node G)) in
  let by_dim :=
    fold_left (fun acc nd =>
        match nd.2 with
        | Some a => alist_set (m_dim a) (S (default 0 (alist_get (m_dim a) acc))) acc
        | None => acc
        end) (g_node G) [] in
  MkCounts num_data (foldr Nat.add 0 (map snd by_dim)) by_dim.

(** ** The ring collapser *)

(** Lines 96-99: marker nodes grouped by their [dim] attribute, each group
    in node order, the groups in order of first appearance. *)
Definition group_markers (G : Graph) : list (nat * list (node * Qc)) :=
  fold_left (fun acc nd =>
      match nd.2 with
      | Some a =>
          alist_set (m_dim a)
            (default [] (alist_get (m_dim a) acc) ++ [(nd.1, m_value a)]) acc
      | None => acc
      end) (g_node G) [].

(** [list.sort(key=lambda x: x[1])] is a stable sort; a stable sort is
    determined by its key order, so insertion sort stands for it. *)
Fixpoint insert_by_value (x : node * Qc) (l : list (node * Qc)) : list (node * Qc) :=
  match l with
  | [] => [x]
  | y :: l' => if decide (x.2 ≤ y.2)%Qc then x :: y :: l' else y :: insert_by_value x l'
  end.

Definition sort_by_value (l : list (node * Qc)) : list (node * Qc) :=
  foldr insert_by_value [] l.

(** Lines 101-102 *)
Definition sorted_markers (G : Graph) : list (nat * list (node * Qc)) :=
  map (fun dm => (dm.1, sort_by_value dm.2)) (group_markers G).

(** [[n for n in G.neighbors(m) if isinstance(n, int)]] *)
Definition row_neighbors (G : Graph) (m : node) : list node :=
  filter is_row (neighbors G m).

(** Lines 121-124 and 136-139: add the weight to an existing edge, or create
    the edge.  The two directions of an edge share one datum in networkx, so
    the in-place [+=] is seen from both endpoints. *)
Definition accumulate_edge (Gp : Graph) (u v : node) (w : Qc) : Graph :=
  if has_edge Gp u v then
    let w' := (default 0 (edge_weight Gp u v) + w)%Qc in
    set_edge Gp u v w'
  else add_edge Gp u v w.

(** Lines 117-124: connect the neighbours in a ring. *)
Definition connect_ring (nbrs : list node) (weight : Qc) (Gp : Graph) : Graph :=
  fold_left (fun Gp i =>
      let node1 := nth i nbrs (Row 0) in
      let node2 := nth ((i + 1) mod length nbrs) nbrs (Row 0) in
      accumulate_edge Gp node1 node2 weight)
    (seq 0 (length nbrs)) Gp.

(** Lines 127-139: connect to the next ring with one edge. *)
Definition connect_next (G : Graph) (markers : list (node * Qc))
    (marker_idx : nat) (curr_node : node) (weight : Qc) (Gp : Graph) : Graph :=
  if decide (marker_idx < length markers - 1) then
    match markers !! (marker_idx + 1) with
    | Some (next_marker, _) =>
        match row_neighbors G next_marker with
        | next_node :: _ => accumulate_edge Gp curr_node next_node weight
        | [] => Gp
        end
    | None => Gp
    end
  else Gp.

(** Lines 107-139: the body of the loop over the markers of one dimension. *)
Definition process_marker (G : Graph) (markers : list (node * Qc))
    (Gp : Graph) (marker_idx : nat) : Graph :=
  match markers !! marker_idx with
  | None => Gp
  | Some (marker, _) =>
      let nbrs := row_neighbors G marker in
      match nbrs with
      | [] => Gp
      | first :: _ =>
          let weight := default 1%Qc (edge_weight G marker first) in
          connect_next G markers marker_idx first weight
            (connect_ring nbrs weight Gp)
      end
  end.

Definition prune_markers_minimal (G : Graph) : Graph :=
  let data_nodes := filter is_row (map fst (g_node G)) in
  let Gp := fold_left (fun Gp n => add_node Gp n None) data_nodes empty_graph in
  fold_left (fun Gp dm =>
      fold_left (process_marker G dm.2) (seq 0 (length dm.2)) Gp)
    (sorted_markers G) Gp.

Definition construct_net (data : ndarray) (weights : list Qc) (window_size : Qc)
  : result Graph :=
  let* G := create_network data weights window_size in
  let _ := show_node_counts G in
  ret (prune_markers_minimal G).

(** * Facts about insertion-ordered dictionaries *)

Section alist_facts.
Context {K V : Type} `{EqDecision K}.
Implicit Types (k : K) (v : V) (l : list (K * V)).

Lemma alist_get_set k k' v l :
  alist_get k' (alist_set k v l) = if decide (k' = k) then Some v else alist_get k' l.
Proof.
  induction l as [|[k0 v0] l IH]; simpl.
  - destruct (decide (k' = k)); reflexivity.
  - destruct (decide (k = k0)) as [->|Hne]; simpl.
    + destruct (decide (k' = k0)); reflexivity.
    + destruct (decide (k' = k0)) as [->|Hne'].
      * destruct (decide (k0 = k)); congruence.
      * exact IH.
Qed.

Lemma alist_get_set_eq k v l : alist_get k (alist_set k v l) = Some v.
Proof. rewrite alist_get_set. destruct (decide (k = k)); congruence. Qed.

Lemma alist_get_set_ne k k' v l :
  k' <> k -> alist_get k' (alist_set k v l) = alist_get k' l.
Proof. intros Hne. rewrite alist_get_set. destruct (decide (k' = k)); congruence. Qed.

Lemma alist_get_None k l : alist_get k l = None <-> k ∉ alist_keys l.
Proof.
  unfold alist_keys. induction l as [|[k0 v0] l IH]; simpl.
  - split; [intros _; apply not_elem_of_nil | reflexivity].
  - rewrite not_elem_of_cons. destruct (decide (k = k0)) as [->|Hne].
    + split; [discriminate | intros [? _]; congruence].
    + rewrite IH. tauto.
Qed.

Lemma alist_get_Some_elem k v l : alist_get k l = Some v -> (k, v) ∈ l.
Proof.
  induction l as [|[k0 v0] l IH]; simpl; [discriminate|].
  destruct (decide (k = k0)) as [->|Hne].
  - intros [= ->]. left.
  - intros Hg. right. auto.
Qed.

Lemma alist_get_is_Some k l : is_Some (alist_get k l) <-> k ∈ alist_keys l.
Proof.
  rewrite <- not_eq_None_Some, alist_get_None.
  destruct (decide (k ∈ alist_keys l)); tauto.
Qed.

Lemma alist_mem_true k l : alist_mem k l = true <-> k ∈ alist_keys l.
Proof.
  rewrite <- alist_get_is_Some. unfold alist_mem.
  destruct (alist_get k l); split; try discriminate; eauto.
  intros [? ?]; discriminate.
Qed.

Lemma alist_mem_false k l : alist_mem k l = false <-> k ∉ alist_keys l.
Proof.
  rewrite <- alist_mem_true. destruct (alist_mem k l); split; congruence.
Qed.

Lemma alist_keys_set_in k v l :
  k ∈ alist_keys l -> alist_keys (alist_set k v l) = alist_keys l.
Proof.
  unfold alist_keys. induction l as [|[k0 v0] l IH]; simpl.
  - intros Hin. inversion Hin.
  - intros Hin. destruct (decide (k = k0)) as [->|Hne]; simpl; [reflexivity|].
    f_equal. apply IH. apply elem_of_cons in Hin as [?|?]; congruence.
Qed.

Lemma alist_keys_set_notin k v l :
  k ∉ alist_keys l -> alist_keys (alist_set k v l) = alist_keys l ++ [k].
Proof.
  unfold alist_keys. induction l as [|[k0 v0] l IH]; simpl; [reflexivity|].
  rewrite not_elem_of_cons. intros [Hne Hnin].
  destruct (decide (k = k0)); [congruence|]. simpl. f_equal. auto.
Qed.

Lemma alist_set_notin k v l :
  k ∉ alist_keys l -> alist_set k v l = l ++ [(k, v)].
Proof.
  unfold alist_keys. induction l as [|[k0 v0] l IH]; simpl; [reflexivity|].
  rewrite not_elem_of_cons. intros [Hne Hnin].
  destruct (decide (k = k0)); [congruence|]. f_equal. auto.
Qed.

Lemma alist_set_same k v l : alist_get k l = Some v -> alist_set k v l = l.
Proof.
  induction l as [|[k0 v0] l IH]; simpl; [discriminate|].
  destruct (decide (k = k0)) as [->|Hne].
  - intros [= ->]. reflexivity.
  - intros Hg. f_equal. auto.
Qed.

Lemma alist_keys_set_elem k k' v l :
  k' ∈ alist_keys (alist_set k v l) <-> k' = k \/ k' ∈ alist_keys l.
Proof.
  rewrite <- !alist_get_is_Some, alist_get_set.
  destruct (decide (k' = k)) as [->|Hne].
  - split; eauto.
  - split; [auto | intros [?|?]; [congruence | assumption]].
Qed.

Lemma alist_keys_set_NoDup k v l :
  NoDup (alist_keys l) -> NoDup (alist_keys (alist_set k v l)).
Proof.
  intros Hnd. destruct (decide (k ∈ alist_keys l)) as [Hin|Hnin].
  - rewrite alist_keys_set_in by assumption. assumption.
  - rewrite alist_keys_set_notin by assumption.
    apply list.NoDup_app. split; [assumption|]. split.
    + intros x Hx Hk. apply list_elem_of_singleton in Hk. congruence.
    + apply NoDup_singleton.
Qed.

Lemma alist_elem_get k v l :
  NoDup (alist_keys l) -> (k, v) ∈ l -> alist_get k l = Some v.
Proof.
  unfold alist_keys. induction l as [|[k0 v0] l IH]; simpl.
  - intros _ Hin. inversion Hin.
  - intros Hnd Hin. apply list.NoDup_cons in Hnd as [Hk0 Hnd].
    apply elem_of_cons in Hin as [Heq|Hin].
    + inversion Heq; subst. destruct (decide (k0 = k0)); congruence.
    + destruct (decide (k = k0)) as [->|Hne]; [|auto].
      exfalso. apply Hk0. apply list_elem_of_fmap. exists (k0, v). auto.
Qed.
End alist_facts.

(** * Facts about graphs *)

Definition node_keys (G : Graph) : list node := alist_keys (g_node G).

(** What networkx maintains: [_node] and [_adj] have the same keys, and the
    two directions of an edge carry the same datum. *)
Record wf_graph (G : Graph) : Prop := {
  wf_keys : alist_keys (g_adj G) = node_keys G;
  wf_nodes : NoDup (node_keys G);
  wf_nbrs : forall u, NoDup (neighbors G u);
  wf_sym : forall u v, edge_weight G u v = edge_weight G v u
}.

Lemma wf_empty_graph : wf_graph empty_graph.
Proof.
  split; simpl; try reflexivity.
  - apply NoDup_nil_2.
  - intros u. apply NoDup_nil_2.
Qed.

Lemma has_node_true G n : has_node G n = true <-> n ∈ node_keys G.
Proof. apply alist_mem_true. Qed.

Lemma adj_of_no_node G n : wf_graph G -> n ∉ node_keys G -> adj_of G n = [].
Proof.
  intros Hwf Hn. unfold adj_of. rewrite <- (wf_keys _ Hwf) in Hn.
  apply alist_get_None in Hn. rewrite Hn. reflexivity.
Qed.

Lemma edge_weight_nodes G u v w :
  wf_graph G -> edge_weight G u v = Some w -> u ∈ node_keys G /\ v ∈ node_keys G.
Proof.
  intros Hwf Huv.
  assert (Hin : forall a b x, edge_weight G a b = Some x -> a ∈ node_keys G).
  { intros a b x Hab. destruct (decide (a ∈ node_keys G)) as [|Hn]; [assumption|].
    unfold edge_weight in Hab. rewrite adj_of_no_node in Hab by assumption.
    discriminate. }
  split; [eapply Hin; eassumption|].
  rewrite (wf_sym _ Hwf) in Huv. eapply Hin; eassumption.
Qed.

Lemma neighbors_elem G u v : v ∈ neighbors G u <-> is_Some (edge_weight G u v).
Proof. unfold neighbors, edge_weight. symmetry. apply alist_get_is_Some. Qed.

Lemma has_edge_true G u v : has_edge G u v = true <-> is_Some (edge_weight G u v).
Proof. unfold has_edge. rewrite alist_mem_true. apply neighbors_elem. Qed.

Lemma neighbors_nodes G u v :
  wf_graph G -> v ∈ neighbors G u -> u ∈ node_keys G /\ v ∈ node_keys G.
Proof.
  intros Hwf [w Hw]%neighbors_elem. eapply edge_weight_nodes; eassumption.
Qed.

(** ** [add_node] *)

Lemma node_keys_add_node G n a :
  node_keys (add_node G n a) =
  if has_node G n then node_keys G else node_keys G ++ [n].
Proof.
  unfold add_node, has_node, alist_mem, node_keys.
  destruct (alist_get n (g_node G)) as [old|] eqn:Hg.
  - destruct a as [a|]; simpl; [|reflexivity].
    apply alist_keys_set_in. apply alist_get_is_Some. eauto.
  - simpl. apply alist_keys_set_notin. apply alist_get_None. assumption.
Qed.

Lemma adj_of_add_node G n a m :
  wf_graph G -> adj_of (add_node G n a) m = adj_of G m.
Proof.
  intros Hwf. unfold add_node.
  destruct (alist_get n (g_node G)) as [old|] eqn:Hg.
  - destruct a; reflexivity.
  - unfold adj_of at 1. simpl. rewrite alist_get_set.
    destruct (decide (m = n)) as [->|Hne]; [|reflexivity].
    symmetry. apply adj_of_no_node; [assumption|].
    apply alist_get_None. assumption.
Qed.

Lemma edge_weight_add_node G n a u v :
  wf_graph G -> edge_weight (add_node G n a) u v = edge_weight G u v.
Proof. intros Hwf. unfold edge_weight. rewrite adj_of_add_node; auto. Qed.

Lemma neighbors_add_node G n a u :
  wf_graph G -> neighbors (add_node G n a) u = neighbors G u.
Proof. intros Hwf. unfold neighbors. rewrite adj_of_add_node; auto. Qed.

Lemma wf_add_node G n a : wf_graph G -> wf_graph (add_node G n a).
Proof.
  intros Hwf. split.
  - rewrite node_keys_add_node. unfold add_node, has_node, alist_mem.
    destruct (alist_get n (g_node G)) as [old|] eqn:Hg.
    + destruct a; simpl; apply (wf_keys _ Hwf).
    + simpl. rewrite alist_keys_set_notin, (wf_keys _ Hwf); [reflexivity|].
      rewrite (wf_keys _ Hwf). apply alist_get_None. assumption.
  - rewrite node_keys_add_node. destruct (has_node G n) eqn:Hn.
    + apply (wf_nodes _ Hwf).
    + apply list.NoDup_app. split; [apply (wf_nodes _ Hwf)|]. split.
      * intros x Hx Hk. apply list_elem_of_singleton in Hk. subst x.
        apply has_node_true in Hx. congruence.
      * apply NoDup_singleton.
  - intros u. rewrite neighbors_add_node by assumption. apply (wf_nbrs _ Hwf).
  - intros u v. rewrite !edge_weight_add_node by assumption. apply (wf_sym _ Hwf).
Qed.

Lemma node_attr_add_node G n a m :
  alist_get m (g_node (add_node G n a)) =
  if decide (m = n) then
    match a with
    | Some x => Some (Some x)
    | None => Some (default None (alist_get n (g_node G)))
    end
  else alist_get m (g_node G).
Proof.
  unfold add_node. destruct (alist_get n (g_node G)) as [old|] eqn:Hg.
  - destruct a as [a|]; simpl.
    + apply alist_get_set.
    + destruct (decide (m = n)) as [->|]; [rewrite Hg|]; reflexivity.
  - simpl. rewrite alist_get_set. destruct a; reflexivity.
Qed.

(** ** [set_edge] and [add_edge] *)

Lemma adj_of_adj_set G u v w a :
  adj_of (adj_set G u v w) a =
  if decide (a = u) then alist_set v w (adj_of G u) else adj_of G a.
Proof.
  unfold adj_of at 1. simpl. rewrite alist_get_set.
  destruct (decide (a = u)); reflexivity.
Qed.

Lemma edge_weight_adj_set G u v w a b :
  edge_weight (adj_set G u v w) a b =
  if decide (a = u /\ b = v) then Some w else edge_weight G a b.
Proof.
  unfold edge_weight. rewrite adj_of_adj_set.
  destruct (decide (a = u)) as [->|Hne].
  - rewrite alist_get_set. destruct (decide (b = v)) as [->|Hne'].
    + destruct (decide (u = u /\ v = v)); tauto.
    + destruct (decide (u = u /\ b = v)); tauto.
  - destruct (decide (a = u /\ b = v)); tauto.
Qed.

Lemma edge_weight_set_edge G u v w a b :
  edge_weight (set_edge G u v w) a b =
  if decide ((a = u /\ b = v) \/ (a = v /\ b = u)) then Some w
  else edge_weight G a b.
Proof.
  unfold set_edge. rewrite !edge_weight_adj_set.
  repeat case_decide; tauto.
Qed.

Lemma wf_adj_set_keys G u v w :
  u ∈ alist_keys (g_adj G) ->
  alist_keys (g_adj (adj_set G u v w)) = alist_keys (g_adj G).
Proof. intros Hu. simpl. apply alist_keys_set_in. assumption. Qed.

Lemma neighbors_adj_set_NoDup G u v w a :
  NoDup (neighbors G a) -> NoDup (neighbors (adj_set G u v w) a).
Proof.
  intros Hnd. unfold neighbors. rewrite adj_of_adj_set.
  destruct (decide (a = u)) as [->|]; [|assumption].
  apply alist_keys_set_NoDup. assumption.
Qed.

Lemma g_node_set_edge G u v w : g_node (set_edge G u v w) = g_node G.
Proof. reflexivity. Qed.

Lemma wf_set_edge G u v w :
  wf_graph G -> u ∈ node_keys G -> v ∈ node_keys G -> wf_graph (set_edge G u v w).
Proof.
  intros Hwf Hu Hv. split.
  - unfold set_edge. rewrite !wf_adj_set_keys.
    + apply (wf_keys _ Hwf).
    + rewrite (wf_keys _ Hwf). assumption.
    + rewrite wf_adj_set_keys; rewrite (wf_keys _ Hwf); assumption.
  - apply (wf_nodes _ Hwf).
  - intros a. unfold set_edge. do 2 apply neighbors_adj_set_NoDup.
    apply (wf_nbrs _ Hwf).
  - intros a b. rewrite !edge_weight_set_edge, (wf_sym _ Hwf a b).
    repeat case_decide; tauto.
Qed.

Lemma g_node_add_edge G u v w :
  g_node (add_edge G u v w) = g_node (add_node (add_node G u None) v None).
Proof. reflexivity. Qed.

Lemma node_keys_add_node_elem G n a m :
  m ∈ node_keys (add_node G n a) <-> m = n \/ m ∈ node_keys G.
Proof.
  rewrite node_keys_add_node. destruct (has_node G n) eqn:Hn.
  - apply has_node_true in Hn. split; [auto | intros [->|?]; assumption].
  - rewrite elem_of_app, list_elem_of_singleton. tauto.
Qed.

Lemma wf_add_edge G u v w : wf_graph G -> wf_graph (add_edge G u v w).
Proof.
  intros Hwf. unfold add_edge. apply wf_set_edge.
  - auto using wf_add_node.
  - rewrite !node_keys_add_node_elem. auto.
  - rewrite !node_keys_add_node_elem. auto.
Qed.

Lemma edge_weight_add_edge G u v w a b :
  wf_graph G ->
  edge_weight (add_edge G u v w) a b =
  if decide ((a = u /\ b = v) \/ (a = v /\ b = u)) then Some w
  else edge_weight G a b.
Proof.
  intros Hwf. unfold add_edge. rewrite edge_weight_set_edge.
  rewrite !edge_weight_add_node by auto using wf_add_node. reflexivity.
Qed.

Lemma add_node_present G n : n ∈ node_keys G -> add_node G n None = G.
Proof.
  intros Hn. unfold add_node.
  apply alist_get_is_Some in Hn as [old Hold]. rewrite Hold. reflexivity.
Qed.

Lemma g_node_add_edge_present G u v w :
  u ∈ node_keys G -> v ∈ node_keys G -> g_node (add_edge G u v w) = g_node G.
Proof.
  intros Hu Hv. rewrite g_node_add_edge.
  rewrite (add_node_present G u) by assumption.
  rewrite (add_node_present G v) by assumption. reflexivity.
Qed.

(** * Edge accumulation *)

(** The accumulated weight of the unordered pair [{a, b}]; zero when the
    reduced graph has no such edge. *)
Definition weight_of (G : Graph) (a b : node) : Qc :=
  default 0%Qc (edge_weight G a b).

Definition same_pair (u v a b : node) : bool :=
  bool_decide ((a = u /\ b = v) \/ (a = v /\ b = u)).

Lemma same_pair_sym u v a b : same_pair u v a b = same_pair u v b a.
Proof. unfold same_pair. apply bool_decide_ext. tauto. Qed.

Lemma wf_accumulate_edge Gp u v w :
  wf_graph Gp -> wf_graph (accumulate_edge Gp u v w).
Proof.
  intros Hwf. unfold accumulate_edge. destruct (has_edge Gp u v) eqn:He.
  - apply has_edge_true in He as [x Hx].
    destruct (edge_weight_nodes _ _ _ _ Hwf Hx). apply wf_set_edge; assumption.
  - apply wf_add_edge. assumption.
Qed.

Lemma edge_weight_accumulate_edge Gp u v w a b :
  wf_graph Gp ->
  edge_weight (accumulate_edge Gp u v w) a b =
  if same_pair u v a b then Some (weight_of Gp a b + w)%Qc
  else edge_weight Gp a b.
Proof.
  intros Hwf. unfold accumulate_edge, same_pair, weight_of.
  destruct (has_edge Gp u v) eqn:He.
  - rewrite edge_weight_set_edge.
    destruct (decide ((a = u /\ b = v) \/ (a = v /\ b = u))) as [Hp|Hp].
    + rewrite bool_decide_eq_true_2 by assumption.
      destruct Hp as [[-> ->]|[-> ->]]; [reflexivity|].
      rewrite (wf_sym _ Hwf v u). reflexivity.
    + rewrite bool_decide_eq_false_2 by assumption. reflexivity.
  - rewrite edge_weight_add_edge by assumption.
    destruct (decide ((a = u /\ b = v) \/ (a = v /\ b = u))) as [Hp|Hp].
    + rewrite bool_decide_eq_true_2 by assumption.
      assert (Hnone : edge_weight Gp a b = None).
      { destruct (edge_weight Gp a b) as [x|] eqn:Hab; [|reflexivity].
        assert (is_Some (edge_weight Gp u v)) as Hs.
        { destruct Hp as [[-> ->]|[-> ->]]; [eauto|].
          rewrite (wf_sym _ Hwf). eauto. }
        apply has_edge_true in Hs. congruence. }
      rewrite Hnone. simpl. rewrite Qcplus_0_l. reflexivity.
    + rewrite bool_decide_eq_false_2 by assumption. reflexivity.
Qed.

Lemma weight_of_accumulate_edge Gp u v w a b :
  wf_graph Gp ->
  weight_of (accumulate_edge Gp u v w) a b =
  (weight_of Gp a b + (if same_pair u v a b then w else 0))%Qc.
Proof.
  intros Hwf. unfold weight_of at 1.
  rewrite edge_weight_accumulate_edge by assumption.
  destruct (same_pair u v a b); simpl.
  - reflexivity.
  - rewrite Qcplus_0_r. reflexivity.
Qed.

Lemma has_edge_accumulate_edge Gp u v w a b :
  wf_graph Gp ->
  has_edge (accumulate_edge Gp u v w) a b = same_pair u v a b || has_edge Gp a b.
Proof.
  intros Hwf. apply eq_true_iff_eq.
  rewrite orb_true_iff, !has_edge_true, edge_weight_accumulate_edge by assumption.
  destruct (same_pair u v a b); split; eauto.
  intros [?|?]; [discriminate|assumption].
Qed.

Lemma g_node_accumulate_edge Gp u v w :
  u ∈ node_keys Gp -> v ∈ node_keys Gp ->
  g_node (accumulate_edge Gp u v w) = g_node Gp.
Proof.
  intros Hu Hv. unfold accumulate_edge. destruct (has_edge Gp u v).
  - apply g_node_set_edge.
  - apply g_node_add_edge_present; assumption.
Qed.

(** Nodes are never removed. *)
Lemma node_keys_accumulate_edge_mono Gp u v w n :
  n ∈ node_keys Gp -> n ∈ node_keys (accumulate_edge Gp u v w).
Proof.
  intros Hn. unfold accumulate_edge. destruct (has_edge Gp u v).
  - exact Hn.
  - unfold node_keys. rewrite g_node_add_edge.
    apply node_keys_add_node_elem. right.
    apply node_keys_add_node_elem. right. exact Hn.
Qed.

(** ** The collapser as a sequence of edge accumulations

    The collapser reads neighbour lists and weights from the expanded graph
    only, which it never changes; what it does to the reduced graph is a
    sequence of accumulations [(node1, node2, weight)]. *)

Definition step : Type := node * node * Qc.

Definition apply_step (Gp : Graph) (s : step) : Graph :=
  accumulate_edge Gp s.1.1 s.1.2 s.2.

Definition ring_steps (nbrs : list node) (weight : Qc) : list step :=
  map (fun i => (nth i nbrs (Row 0),
                 nth ((i + 1) mod length nbrs) nbrs (Row 0), weight))
      (seq 0 (length nbrs)).

Definition bridge_steps (G : Graph) (markers : list (node * Qc))
    (marker_idx : nat) (curr_node : node) (weight : Qc) : list step :=
  if decide (marker_idx < length markers - 1) then
    match markers !! (marker_idx + 1) with
    | Some (next_marker, _) =>
        match row_neighbors G next_marker with
        | next_node :: _ => [(curr_node, next_node, weight)]
        | [] => []
        end
    | None => []
    end
  else [].

Definition marker_steps (G : Graph) (markers : list (node * Qc))
    (marker_idx : nat) : list step :=
  match markers !! marker_idx with
  | None => []
  | Some (marker, _) =>
      match row_neighbors G marker with
      | [] => []
      | first :: _ =>
          let weight := default 1%Qc (edge_weight G marker first) in
          ring_steps (row_neighbors G marker) weight
          ++ bridge_steps G markers marker_idx first weight
      end
  end.

Definition dim_steps (G : Graph) (markers : list (node * Qc)) : list step :=
  flat_map (marker_steps G markers) (seq 0 (length markers)).

Definition all_steps (G : Graph) : list step :=
  flat_map (fun dm => dim_steps G dm.2) (sorted_markers G).

(** Lines 88-93 *)
Definition init_pruned (G : Graph) : Graph :=
  fold_left (fun Gp n => add_node Gp n None)
    (filter is_row (map fst (g_node G))) empty_graph.

Lemma elem_of_flat_map {A B} (f : A -> list B) (l : list A) (y : B) :
  y ∈ flat_map f l <-> exists x, x ∈ l /\ y ∈ f x.
Proof.
  rewrite list_elem_of_In, in_flat_map. split.
  - intros (x & Hx & Hy). exists x. rewrite !list_elem_of_In. auto.
  - intros (x & Hx & Hy). exists x. rewrite <- !list_elem_of_In. auto.
Qed.

Lemma fold_left_flat_map {A B C} (f : A -> B -> A) (g : C -> list B) l a :
  fold_left f (flat_map g l) a = fold_left (fun a c => fold_left f (g c) a) l a.
Proof.
  revert a. induction l as [|c l IH]; intros a; simpl; [reflexivity|].
  rewrite fold_left_app. apply IH.
Qed.

Lemma fold_left_map_step {A B C} (f : A -> B -> A) (g : C -> B) l a :
  fold_left f (map g l) a = fold_left (fun a c => f a (g c)) l a.
Proof.
  revert a. induction l as [|c l IH]; intros a; simpl; [reflexivity|]. apply IH.
Qed.

Lemma fold_left_ext_in {A B} (f g : A -> B -> A) l a :
  (forall a b, b ∈ l -> f a b = g a b) -> fold_left f l a = fold_left g l a.
Proof.
  revert a. induction l as [|b l IH]; intros a Hfg; simpl; [reflexivity|].
  rewrite Hfg by left. apply IH. intros a' b' Hb'. apply Hfg. right. exact Hb'.
Qed.

Lemma connect_ring_steps nbrs w Gp :
  connect_ring nbrs w Gp = fold_left apply_step (ring_steps nbrs w) Gp.
Proof.
  unfold connect_ring, ring_steps. rewrite fold_left_map_step. reflexivity.
Qed.

Lemma connect_next_steps G markers idx first w Gp :
  connect_next G markers idx first w Gp =
  fold_left apply_step (bridge_steps G markers idx first w) Gp.
Proof.
  unfold connect_next, bridge_steps.
  destruct (decide (idx < length markers - 1)); [|reflexivity].
  destruct (markers !! (idx + 1)) as [[nm ?]|]; [|reflexivity].
  destruct (row_neighbors G nm); reflexivity.
Qed.

Lemma process_marker_steps G markers Gp idx :
  process_marker G markers Gp idx =
  fold_left apply_step (marker_steps G markers idx) Gp.
Proof.
  unfold process_marker, marker_steps.
  destruct (markers !! idx) as [[m ?]|]; [|reflexivity].
  destruct (row_neighbors G m) as [|first rest] eqn:Hn; [reflexivity|].
  rewrite fold_left_app, connect_next_steps, connect_ring_steps. reflexivity.
Qed.

Lemma process_dimension_steps G markers Gp :
  fold_left (process_marker G markers) (seq 0 (length markers)) Gp =
  fold_left apply_step (dim_steps G markers) Gp.
Proof.
  unfold dim_steps. rewrite fold_left_flat_map.
  apply fold_left_ext_in. intros a b _. apply process_marker_steps.
Qed.

Lemma prune_markers_minimal_steps G :
  prune_markers_minimal G = fold_left apply_step (all_steps G) (init_pruned G).
Proof.
  unfold prune_markers_minimal, all_steps. rewrite fold_left_flat_map.
  apply fold_left_ext_in. intros a b _. apply process_dimension_steps.
Qed.

(** The weight that a sequence of accumulations puts on the pair [{a, b}]. *)
Definition steps_weight (a b : node) (steps : list step) : Qc :=
  foldr (fun s acc => ((if same_pair s.1.1 s.1.2 a b then s.2 else 0) + acc)%Qc)
        0%Qc steps.

Lemma wf_apply_steps steps Gp :
  wf_graph Gp -> wf_graph (fold_left apply_step steps Gp).
Proof.
  revert Gp. induction steps as [|s steps IH]; intros Gp Hwf; simpl; [assumption|].
  apply IH. apply wf_accumulate_edge. assumption.
Qed.

(** Accumulation sums, it never overwrites. *)
Lemma weight_of_apply_steps steps Gp a b :
  wf_graph Gp ->
  weight_of (fold_left apply_step steps Gp) a b =
  (weight_of Gp a b + steps_weight a b steps)%Qc.
Proof.
  revert Gp. induction steps as [|s steps IH]; intros Gp Hwf; simpl.
  - rewrite Qcplus_0_r. reflexivity.
  - rewrite IH by (apply wf_accumulate_edge; assumption).
    unfold apply_step. rewrite weight_of_accumulate_edge by assumption. ring.
Qed.


(** * Exact arithmetic *)

(** Goals over [Qc] are moved to [Q], where [lra] and [nra] work. *)
Lemma this_Q2Qc (q : Q) : (this (Q2Qc q) == q)%Q.
Proof. apply Qred_correct. Qed.

Lemma this_plus (x y : Qc) : (this (x + y)%Qc == this x + this y)%Q.
Proof. apply Qred_correct. Qed.

Lemma this_mult (x y : Qc) : (this (x * y)%Qc == this x * this y)%Q.
Proof. apply Qred_correct. Qed.

Lemma this_opp (x : Qc) : (this (- x)%Qc == - this x)%Q.
Proof. apply Qred_correct. Qed.

Lemma this_minus (x y : Qc) : (this (x - y)%Qc == this x - this y)%Q.
Proof. unfold Qcminus. rewrite this_plus, this_opp. reflexivity. Qed.

Lemma this_of_Z (z : Z) : this (Qc_of_Z z) = inject_Z z.
Proof. reflexivity. Qed.

Ltac qc_rewrite_goal :=
  repeat first
    [ rewrite this_minus | rewrite this_plus | rewrite this_mult
    | rewrite this_opp | rewrite this_Q2Qc | rewrite this_of_Z ].

Ltac qc_rewrite_in H :=
  repeat first
    [ rewrite this_minus in H | rewrite this_plus in H | rewrite this_mult in H
    | rewrite this_opp in H | rewrite this_Q2Qc in H | rewrite this_of_Z in H ].

Ltac qc_unfold :=
  unfold Qcle, Qclt, Qc_of_nat in *;
  qc_rewrite_goal;
  repeat match goal with
  | H : (_ <= _)%Q |- _ => progress (qc_rewrite_in H)
  | H : (_ < _)%Q |- _ => progress (qc_rewrite_in H)
  end.

Lemma Qc_of_Z_le a b : (a <= b)%Z <-> (Qc_of_Z a ≤ Qc_of_Z b)%Qc.
Proof. unfold Qcle. rewrite !this_of_Z, Zle_Qle. reflexivity. Qed.

Lemma Qc_of_Z_lt a b : (a < b)%Z <-> (Qc_of_Z a < Qc_of_Z b)%Qc.
Proof. unfold Qclt. rewrite !this_of_Z, Zlt_Qlt. reflexivity. Qed.

Lemma Qfloor_bounds (q : Qc) :
  (Qc_of_Z (Qfloor (this q)) ≤ q)%Qc /\ (q < Qc_of_Z (Qfloor (this q) + 1))%Qc.
Proof.
  unfold Qcle, Qclt. simpl. split; [apply Qfloor_le | apply Qlt_floor].
Qed.

Lemma py_int_floor (q : Qc) : (0 ≤ q)%Qc -> py_int q = Qfloor (this q).
Proof.
  unfold Qcle, py_int. simpl. destruct (this q) as [n d]. simpl.
  unfold Qle. simpl. intros Hn.
  apply Z.quot_div_nonneg; lia.
Qed.

Lemma py_int_mono (a b : Qc) : (0 ≤ a)%Qc -> (a ≤ b)%Qc -> (py_int a <= py_int b)%Z.
Proof.
  intros Ha Hab. rewrite !py_int_floor; [|eapply Qcle_trans; eassumption|assumption].
  apply Qfloor_resp_le. exact Hab.
Qed.

Lemma py_int_nonneg (a : Qc) : (0 ≤ a)%Qc -> (0 <= py_int a)%Z.
Proof.
  intros Ha. rewrite py_int_floor by assumption.
  change 0%Z with (Qfloor 0). apply Qfloor_resp_le. exact Ha.
Qed.

Lemma Qcinv_pos (w : Qc) : (0 < w)%Qc -> (0 < / w)%Qc.
Proof.
  unfold Qclt, Qcinv. rewrite !this_Q2Qc. apply Qinv_lt_0_compat.
Qed.

Lemma Qcdiv_nonneg (a w : Qc) : (0 ≤ a)%Qc -> (0 < w)%Qc -> (0 ≤ a / w)%Qc.
Proof.
  intros Ha Hw%Qcinv_pos. unfold Qcdiv. qc_unfold.
  apply Qmult_le_0_compat; [assumption|]. apply Qlt_le_weak. assumption.
Qed.

Lemma Qcdiv_mono (a b w : Qc) : (a ≤ b)%Qc -> (0 < w)%Qc -> (a / w ≤ b / w)%Qc.
Proof.
  intros Hab Hw%Qcinv_pos. unfold Qcdiv. apply Qcmult_le_compat_r; [assumption|].
  apply Qclt_le_weak. assumption.
Qed.

(** Rounding to nearest stays within a half of its argument. *)
Lemma round_half_even_bounds (q : Qc) :
  (q - Q2Qc (1 # 2) ≤ Qc_of_Z (round_half_even q))%Qc /\
  (Qc_of_Z (round_half_even q) ≤ q + Q2Qc (1 # 2))%Qc.
Proof.
  destruct (Qfloor_bounds q) as [Hlo Hhi].
  unfold round_half_even.
  set (f := Qfloor (this q)) in *.
  repeat case_decide; try destruct (Z.even f);
    repeat match goal with
    | H : ¬ (_ < _)%Qc |- _ => apply Qcnot_lt_le in H
    end;
    qc_unfold; rewrite ?inject_Z_plus in *;
    change (inject_Z 1) with 1%Q in *; split; lra.
Qed.

Lemma round_half_even_lt (a b : Qc) :
  (a + 1 < b)%Qc -> (round_half_even a < round_half_even b)%Z.
Proof.
  intros Hab. apply Qc_of_Z_lt.
  destruct (round_half_even_bounds a) as [_ Ha].
  destruct (round_half_even_bounds b) as [Hb _].
  qc_unfold. lra.
Qed.

Lemma round_half_even_nonneg (a : Qc) : (0 ≤ a)%Qc -> (0 <= round_half_even a)%Z.
Proof.
  intros Ha. destruct (round_half_even_bounds a) as [Hlo _].
  assert (Qc_of_Z (-1) < Qc_of_Z (round_half_even a))%Qc as Hlt.
  { qc_unfold. change (inject_Z (-1)) with (-1)%Q. lra. }
  apply Qc_of_Z_lt in Hlt. lia.
Qed.

(** * Marker keys are injective encodings *)

Definition is_digit (c : ascii) : bool :=
  (48 <=? nat_of_ascii c) && (nat_of_ascii c <=? 57).

Fixpoint digits_only (s : string) : bool :=
  match s with
  | EmptyString => true
  | String c s' => is_digit c && digits_only s'
  end.

Lemma pretty_N_char_digit x : is_digit (pretty_N_char x) = true.
Proof. unfold pretty_N_char. repeat case_match; reflexivity. Qed.

Lemma pretty_N_go_digits x s :
  digits_only s = true -> digits_only (pretty_N_go x s) = true.
Proof.
  revert s. induction (N.lt_wf_0 x) as [x _ IH]; intros s Hs.
  destruct (decide (x = 0)%N) as [->|Hx].
  - rewrite pretty_N_go_0. exact Hs.
  - rewrite pretty_N_go_step by lia. apply IH.
    + apply N.div_lt; lia.
    + simpl. rewrite pretty_N_char_digit. exact Hs.
Qed.

Lemma pretty_N_go_length x s :
  String.length s <= String.length (pretty_N_go x s).
Proof.
  revert s. induction (N.lt_wf_0 x) as [x _ IH]; intros s.
  destruct (decide (x = 0)%N) as [->|Hx].
  - rewrite pretty_N_go_0. lia.
  - rewrite pretty_N_go_step by lia.
    etrans; [|apply IH; apply N.div_lt; lia]. simpl. lia.
Qed.

Lemma pretty_N_digits (n : N) : digits_only (pretty n) = true.
Proof.
  unfold pretty, pretty_N. case_decide; [reflexivity|].
  apply pretty_N_go_digits. reflexivity.
Qed.

Lemma pretty_N_nonempty (n : N) : pretty n <> "".
Proof.
  unfold pretty, pretty_N. case_decide; [discriminate|].
  rewrite pretty_N_go_step by lia. intros Hempty.
  pose proof (pretty_N_go_length (n `div` 10)%N
                (String (pretty_N_char (n `mod` 10)%N) "")) as Hlen.
  rewrite Hempty in Hlen. simpl in Hlen. lia.
Qed.

Lemma pretty_nat_digits (n : nat) : digits_only (pretty n) = true.
Proof. apply pretty_N_digits. Qed.

(** Two texts that start with digits and then the same separator agree on
    the digits and on the rest. *)
Lemma append_sep_inj c s1 s2 r1 r2 :
  is_digit c = false ->
  digits_only s1 = true -> digits_only s2 = true ->
  s1 +:+ String c r1 = s2 +:+ String c r2 -> s1 = s2 /\ r1 = r2.
Proof.
  intros Hc. revert s2. induction s1 as [|a s1 IH]; intros [|b s2]; simpl.
  - intros _ _ [= ->]. auto.
  - intros _ [Hb _]%andb_true_iff [= <- _]. congruence.
  - intros [Ha _]%andb_true_iff _ [= -> _]. congruence.
  - intros [_ H1]%andb_true_iff [_ H2]%andb_true_iff [= -> Heq].
    destruct (IH s2 H1 H2 Heq) as [-> ->]. auto.
Qed.

Lemma pad4_digits (a : N) :
  (a < 10000)%N ->
  (a = 1000 * ((a `div` 1000) `mod` 10) + 100 * ((a `div` 100) `mod` 10)
       + 10 * ((a `div` 10) `mod` 10) + a `mod` 10)%N.
Proof.
  intros Ha.
  pose proof (N.div_mod a 10) as E0.
  pose proof (N.div_mod (a `div` 10) 10) as E1.
  pose proof (N.div_mod (a `div` 100) 10) as E2.
  rewrite (N.Div0.div_div a 10 10) in E1.
  rewrite (N.Div0.div_div a 100 10) in E2.
  change (10 * 10)%N with 100%N in *. change (100 * 10)%N with 1000%N in *.
  assert (a `div` 1000 < 10)%N as H3
    by (apply N.Div0.div_lt_upper_bound; exact Ha).
  rewrite (N.mod_small (a `div` 1000) 10) in * by exact H3.
  specialize (E0 ltac:(discriminate)).
  specialize (E1 ltac:(discriminate)).
  specialize (E2 ltac:(discriminate)).
  lia.
Qed.

Lemma pad4_inj (a b : N) :
  (a < 10000)%N -> (b < 10000)%N -> pad4 a = pad4 b -> a = b.
Proof.
  intros Ha Hb. unfold pad4. intros [= H3 H2 H1 H0].
  apply pretty_N_char_inj in H3, H2, H1, H0;
    try (apply N.mod_lt; discriminate).
  rewrite (pad4_digits a Ha), (pad4_digits b Hb). congruence.
Qed.

(** The integer that [fmt4] prints, scaled by 10^4 *)
Definition scaled4 (v : Qc) : N :=
  Z.to_N (round_half_even (Qcabs v * Qc_of_Z 10000)%Qc).

Lemma fmt4_inj (x y : Qc) :
  fmt4 x = fmt4 y ->
  ((x < 0)%Qc <-> (y < 0)%Qc) /\ scaled4 x = scaled4 y.
Proof.
  unfold fmt4. fold (scaled4 x) (scaled4 y).
  set (rx := scaled4 x). set (ry := scaled4 y).
  assert (Hbody : forall r r' : N,
    pretty (r `div` 10000)%N +:+ "." +:+ pad4 (r `mod` 10000)%N =
    pretty (r' `div` 10000)%N +:+ "." +:+ pad4 (r' `mod` 10000)%N -> r = r').
  { intros r r' Heq. simpl in Heq.
    apply append_sep_inj in Heq as [Hip Hfp];
      [|reflexivity|apply pretty_N_digits..].
    apply (inj pretty) in Hip.
    apply pad4_inj in Hfp; [|apply N.mod_lt; discriminate..].
    rewrite (N.div_mod r 10000), (N.div_mod r' 10000) by discriminate.
    congruence. }
  assert (Hsign : forall r r' : N,
    "-" +:+ pretty (r `div` 10000)%N +:+ "." +:+ pad4 (r `mod` 10000)%N <>
    "" +:+ pretty (r' `div` 10000)%N +:+ "." +:+ pad4 (r' `mod` 10000)%N).
  { intros r r'. simpl.
    pose proof (pretty_N_digits (r' `div` 10000)%N) as Hd.
    pose proof (pretty_N_nonempty (r' `div` 10000)%N) as Hne.
    destruct (pretty (r' `div` 10000)%N) as [|c s]; [congruence|].
    simpl in Hd. apply andb_true_iff in Hd as [Hc _].
    simpl. intros [= <- _]. discriminate. }
  destruct (decide (x < 0)%Qc) as [Hx|Hx], (decide (y < 0)%Qc) as [Hy|Hy];
    intros Heq.
  - split; [tauto|]. simpl in Heq. injection Heq as Heq.
    apply Hbody. exact Heq.
  - exfalso. exact (Hsign _ _ Heq).
  - exfalso. symmetry in Heq. exact (Hsign _ _ Heq).
  - split; [tauto|]. apply Hbody. exact Heq.
Qed.

Lemma marker_name_inj (d d' : nat) (x x' : Qc) :
  marker_name d x = marker_name d' x' -> d = d' /\ fmt4 x = fmt4 x'.
Proof.
  unfold marker_name. simpl. intros Heq.
  apply append_sep_inj in Heq as [Hd Hf];
    [|reflexivity|apply pretty_nat_digits..].
  apply (inj pretty) in Hd. auto.
Qed.

(** Two values more than 0.0001 apart never print alike. *)
Lemma fmt4_apart (x y : Qc) :
  (x + Q2Qc (1 # 10000) < y)%Qc -> fmt4 x <> fmt4 y.
Proof.
  intros Hxy Heq. apply fmt4_inj in Heq as [Hsign Hsc].
  unfold scaled4 in Hsc.
  assert (Hnn : forall v, (0 <= round_half_even (Qcabs v * Qc_of_Z 10000)%Qc)%Z).
  { intros v. apply round_half_even_nonneg.
    pose proof (Qcabs_nonneg v) as Hv. qc_unfold.
    change (inject_Z 10000) with 10000%Q. nra. }
  apply Z2N.inj in Hsc; [|apply Hnn..].
  destruct (decide (x < 0)%Qc) as [Hx|Hx].
  - assert (Hy : (y < 0)%Qc) by tauto.
    assert (round_half_even (Qcabs y * Qc_of_Z 10000)%Qc
            < round_half_even (Qcabs x * Qc_of_Z 10000)%Qc)%Z; [|lia].
    apply round_half_even_lt.
    rewrite !Qcabs_neg by (apply Qclt_le_weak; assumption).
    qc_unfold. change (inject_Z 10000) with 10000%Q. lra.
  - assert (Hy : ¬ (y < 0)%Qc) by tauto.
    apply Qcnot_lt_le in Hx, Hy.
    assert (round_half_even (Qcabs x * Qc_of_Z 10000)%Qc
            < round_half_even (Qcabs y * Qc_of_Z 10000)%Qc)%Z; [|lia].
    apply round_half_even_lt.
    rewrite !Qcabs_pos by assumption.
    qc_unfold. change (inject_Z 10000) with 10000%Q. lra.
Qed.

(** * The builder on valid input *)

(** The preconditions of the builder: a rectangular matrix with at least one
    row, one positive weight per column, a positive window. *)
Record valid_input (data : ndarray) (weights : list Qc) (window_size : Qc)
  : Prop := {
  valid_array : wf_array data;
  valid_rows : 1 <= length (rows data);
  valid_weights : length weights = ncols data;
  valid_positive : Forall (fun w => (0 < w)%Qc) weights;
  valid_window : (0 < window_size)%Qc
}.

(** What one iteration of the dimension loop computes when nothing raises. *)
Definition col_max (l : list Qc) : Qc :=
  match l with [] => 0%Qc | x :: l' => fold_left Qc_max l' x end.

Definition col_min (l : list Qc) : Qc :=
  match l with [] => 0%Qc | x :: l' => fold_left Qc_min l' x end.

Section dimension.
Variables (data : ndarray) (weights : list Qc) (window_size : Qc).

Definition dim_max (d : nat) : Qc := col_max (column data d).
Definition dim_min (d : nat) : Qc := col_min (column data d).

(** [n] of line 18 *)
Definition bin_count (d : nat) : Z :=
  (py_int ((dim_max d - dim_min d) / window_size)%Qc + 1)%Z.

(** [markers] of line 21 *)
Definition dim_markers (d : nat) : list Qc :=
  marker_values window_size (dim_min d) (bin_count d).

(** The index computed on line 30 for a row [point] *)
Definition point_index (d : nat) (point : list Qc) : Z :=
  py_int ((nth d point 0 - dim_min d) / window_size)%Qc.

(** [lower_marker] of line 30 *)
Definition point_marker (d : nat) (point : list Qc) : Qc :=
  nth (Z.to_nat (point_index d point)) (dim_markers d) 0%Qc.


Definition dimension_graph (G : Graph) (d : nat) : Graph :=
  let weight := nth d weights 0%Qc in
  let markers := dim_markers d in
  let G := add_node G (Marker (marker_name d (nth 0 markers 0%Qc)))
             (Some (MarkerAttr d (nth 0 markers 0%Qc))) in
  let G := add_chain d weight markers (bin_count d) G in
  fold_left (fun G ip =>
      add_edge G (Row ip.1) (Marker (marker_name d (point_marker d ip.2))) weight)
    (imap (fun i point => (i, point)) (rows data)) G.

Definition rows_graph : Graph :=
  fold_left (fun G i => add_node G (Row i) None)
    (seq 0 (length (rows data))) empty_graph.
End dimension.

Lemma Qc_max_ub a b : (a ≤ Qc_max a b)%Qc /\ (b ≤ Qc_max a b)%Qc.
Proof.
  unfold Qc_max. case_decide as H; split; try apply Qcle_refl; [assumption|].
  apply Qclt_le_weak, Qcnot_le_lt. assumption.
Qed.

Lemma Qc_min_lb a b : (Qc_min a b ≤ a)%Qc /\ (Qc_min a b ≤ b)%Qc.
Proof.
  unfold Qc_min. case_decide as H; split; try apply Qcle_refl; [assumption|].
  apply Qclt_le_weak, Qcnot_le_lt. assumption.
Qed.

Lemma fold_Qc_max_ub l x :
  (x ≤ fold_left Qc_max l x)%Qc /\ (forall v, v ∈ l -> (v ≤ fold_left Qc_max l x)%Qc).
Proof.
  revert x. induction l as [|y l IH]; intros x; simpl.
  - split; [apply Qcle_refl | intros v Hv; inversion Hv].
  - destruct (IH (Qc_max x y)) as [H1 H2]. destruct (Qc_max_ub x y) as [Hx Hy].
    split; [eapply Qcle_trans; eassumption|].
    intros v [->|Hv]%elem_of_cons; [eapply Qcle_trans; eassumption | auto].
Qed.

Lemma fold_Qc_min_lb l x :
  (fold_left Qc_min l x ≤ x)%Qc /\ (forall v, v ∈ l -> (fold_left Qc_min l x ≤ v)%Qc).
Proof.
  revert x. induction l as [|y l IH]; intros x; simpl.
  - split; [apply Qcle_refl | intros v Hv; inversion Hv].
  - destruct (IH (Qc_min x y)) as [H1 H2]. destruct (Qc_min_lb x y) as [Hx Hy].
    split; [eapply Qcle_trans; eassumption|].
    intros v [->|Hv]%elem_of_cons; [eapply Qcle_trans; eassumption | auto].
Qed.


Lemma fold_Qc_min_elem l x : fold_left Qc_min l x ∈ x :: l.
Proof.
  revert x. induction l as [|y l IH]; intros x; simpl; [left|].
  specialize (IH (Qc_min x y)). unfold Qc_min in *.
  case_decide; apply elem_of_cons in IH as [->|?];
    rewrite ?elem_of_cons; auto.
Qed.

Lemma col_max_ub l v : v ∈ l -> (v ≤ col_max l)%Qc.
Proof.
  destruct l as [|x l]; [intros Hv; inversion Hv|]. simpl.
  destruct (fold_Qc_max_ub l x) as [H1 H2].
  intros [->|Hv]%elem_of_cons; auto.
Qed.

Lemma col_min_lb l v : v ∈ l -> (col_min l ≤ v)%Qc.
Proof.
  destruct l as [|x l]; [intros Hv; inversion Hv|]. simpl.
  destruct (fold_Qc_min_lb l x) as [H1 H2].
  intros [->|Hv]%elem_of_cons; auto.
Qed.


Lemma col_min_elem l : l <> [] -> col_min l ∈ l.
Proof. destruct l; [congruence|]. intros _. apply fold_Qc_min_elem. Qed.



Lemma np_max_col_max l : l <> [] -> np_max l = inr (col_max l).
Proof. destruct l; [congruence|]. reflexivity. Qed.

Lemma np_min_col_min l : l <> [] -> np_min l = inr (col_min l).
Proof. destruct l; [congruence|]. reflexivity. Qed.

Lemma py_int_div_ok (a w : Qc) :
  w <> 0%Qc -> py_int_div a w = inr (py_int (a / w)%Qc).
Proof. intros Hw. unfold py_int_div. case_decide; [congruence|]. reflexivity. Qed.

Lemma py_index_ok {A} (l : list A) (i : Z) (dflt : A) :
  (0 <= i < Z.of_nat (length l))%Z -> py_index l i = inr (nth (Z.to_nat i) l dflt).
Proof.
  intros Hi. unfold py_index.
  destruct (decide (i < 0)%Z) as [|_]; [exfalso; lia|].
  destruct (decide (i < 0)%Z) as [|_]; [exfalso; lia|].
  destruct (l !! Z.to_nat i) as [a|] eqn:Hl.
  - rewrite (nth_lookup_Some _ _ _ _ Hl). reflexivity.
  - apply lookup_ge_None in Hl. lia.
Qed.

Lemma lookup_nth_lt {A} (l : list A) (i : nat) (dflt : A) :
  i < length l -> l !! i = Some (nth i l dflt).
Proof.
  intros Hi. destruct (lookup_lt_is_Some_2 l i Hi) as [x Hx].
  rewrite nth_lookup, Hx. reflexivity.
Qed.

Lemma foldM_pure {A B} (f : A -> B -> result A) (g : A -> B -> A) l a :
  (forall a b, b ∈ l -> f a b = inr (g a b)) ->
  foldM f l a = inr (fold_left g l a).
Proof.
  revert a. induction l as [|b l IH]; intros a Hfg; simpl; [reflexivity|].
  rewrite Hfg by left. simpl. apply IH. intros a' b' Hb'. apply Hfg. right. exact Hb'.
Qed.

Lemma length_marker_values w m n :
  length (marker_values w m n) = Z.to_nat (n + 1).
Proof. unfold marker_values. rewrite length_map, length_seq. reflexivity. Qed.


Section valid.
Variables (data : ndarray) (weights : list Qc) (window_size : Qc).
Hypothesis Hvalid : valid_input data weights window_size.

Lemma window_nonzero : window_size <> 0%Qc.
Proof.
  intros H. pose proof (valid_window _ _ _ Hvalid) as Hw. rewrite H in Hw.
  exact (Qclt_not_eq _ _ Hw eq_refl).
Qed.

Lemma column_nonempty d : column data d <> [].
Proof.
  unfold column. pose proof (valid_rows _ _ _ Hvalid) as HR.
  destruct (rows data); simpl in *; [lia | discriminate].
Qed.

Lemma dim_min_le_max d : (dim_min data d ≤ dim_max data d)%Qc.
Proof. apply col_max_ub, col_min_elem, column_nonempty. Qed.

Lemma point_in_column d i p : rows data !! i = Some p -> nth d p 0%Qc ∈ column data d.
Proof.
  intros Hp. unfold column. apply list_elem_of_fmap. exists p. split; [reflexivity|].
  eapply list_elem_of_lookup_2. eassumption.
Qed.

Lemma bin_count_pos d : (1 <= bin_count data window_size d)%Z.
Proof.
  unfold bin_count.
  assert (0 <= py_int ((dim_max data d - dim_min data d) / window_size)%Qc)%Z; [|lia].
  apply py_int_nonneg, Qcdiv_nonneg; [|apply (valid_window _ _ _ Hvalid)].
  pose proof (dim_min_le_max d) as H. qc_unfold. lra.
Qed.

(** Every row lands in one of the bins [0 .. n-1]. *)
Lemma point_index_range d i p :
  rows data !! i = Some p ->
  (0 <= point_index data window_size d p < bin_count data window_size d)%Z.
Proof.
  intros Hp. apply (point_in_column d) in Hp.
  pose proof (col_min_lb _ _ Hp) as Hlo. pose proof (col_max_ub _ _ Hp) as Hhi.
  fold (dim_min data d) in Hlo. fold (dim_max data d) in Hhi.
  pose proof (valid_window _ _ _ Hvalid) as Hw.
  unfold point_index, bin_count.
  assert (0 ≤ nth d p 0 - dim_min data d)%Qc as H0 by (qc_unfold; lra).
  split.
  - apply py_int_nonneg, Qcdiv_nonneg; assumption.
  - assert (py_int ((nth d p 0 - dim_min data d) / window_size)%Qc
            <= py_int ((dim_max data d - dim_min data d) / window_size)%Qc)%Z; [|lia].
    apply py_int_mono; [apply Qcdiv_nonneg; assumption|].
    apply Qcdiv_mono; [|assumption]. qc_unfold. lra.
Qed.

Lemma length_dim_markers d :
  length (dim_markers data window_size d) = Z.to_nat (bin_count data window_size d + 1).
Proof. apply length_marker_values. Qed.

Lemma add_dimension_valid G d :
  d < ncols data ->
  add_dimension data weights window_size G d =
  inr (dimension_graph data weights window_size G d).
Proof.
  intros Hd. unfold add_dimension, dimension_graph.
  assert (weights !! d = Some (nth d weights 0%Qc)) as ->.
  { apply lookup_nth_lt. rewrite (valid_weights _ _ _ Hvalid). exact Hd. }
  cbn [bind ret].
  rewrite np_max_col_max, np_min_col_min by apply column_nonempty.
  cbn [bind ret].
  rewrite py_int_div_ok by apply window_nonzero. cbn [bind ret].
  fold (dim_max data d) (dim_min data d) (bin_count data window_size d).
  fold (dim_markers data window_size d).
  pose proof (bin_count_pos d) as Hn.
  rewrite (py_index_ok _ _ 0%Qc) by (rewrite length_dim_markers; lia).
  cbn [bind ret]. change (Z.to_nat 0) with 0.
  unfold assign_rows. apply foldM_pure.
  intros G' [i p] Hip. apply elem_of_lookup_imap in Hip as (i' & p' & [= -> ->] & Hp).
  cbn [fst snd].
  rewrite py_int_div_ok by apply window_nonzero. cbn [bind ret].
  pose proof (point_index_range d _ _ Hp) as Hidx. unfold point_index in Hidx.
  rewrite (py_index_ok _ _ 0%Qc) by (rewrite length_dim_markers; lia).
  reflexivity.
Qed.

Lemma create_network_valid :
  create_network data weights window_size =
  inr (fold_left (dimension_graph data weights window_size)
         (seq 0 (ncols data)) (rows_graph data)).
Proof.
  unfold create_network. apply foldM_pure.
  intros G d Hd%elem_of_seq. apply add_dimension_valid. lia.
Qed.
End valid.

(** * Invariants of the expanded graph *)

Lemma fold_left_inv {A B} (P : A -> Prop) (f : A -> B -> A) l a :
  P a -> (forall a b, b ∈ l -> P a -> P (f a b)) -> P (fold_left f l a).
Proof.
  revert a. induction l as [|b l IH]; intros a Ha Hf; simpl; [assumption|].
  apply IH; [apply Hf; [left|assumption]|].
  intros a' b' Hb'. apply Hf. right. exact Hb'.
Qed.

Definition row_keys (G : Graph) : list node := filter is_row (node_keys G).

Lemma row_keys_add_node G n a :
  (is_row n = true -> n ∈ node_keys G) ->
  row_keys (add_node G n a) = row_keys G.
Proof.
  intros Hn. unfold row_keys. rewrite node_keys_add_node.
  destruct (has_node G n) eqn:Hh; [reflexivity|].
  rewrite list.filter_app. simpl.
  destruct (is_row n) eqn:Hr.
  - apply has_node_true in Hn; [congruence | reflexivity].
  - rewrite filter_cons_False by (rewrite Hr; auto). rewrite filter_nil.
    apply app_nil_r.
Qed.

Lemma row_keys_add_edge G u v w :
  (is_row u = true -> u ∈ node_keys G) ->
  (is_row v = true -> v ∈ node_keys G) ->
  row_keys (add_edge G u v w) = row_keys G.
Proof.
  intros Hu Hv. unfold row_keys, node_keys. rewrite g_node_add_edge.
  fold (node_keys (add_node (add_node G u None) v None)).
  fold (row_keys (add_node (add_node G u None) v None)).
  rewrite !row_keys_add_node; [reflexivity|assumption|].
  intros Hr. apply node_keys_add_node_elem. auto.
Qed.

Lemma node_attr_add_node_None G n m a :
  alist_get m (g_node (add_node G n None)) = Some (Some a) ->
  alist_get m (g_node G) = Some (Some a).
Proof.
  rewrite node_attr_add_node. case_decide as Hm; [|auto]. subst m.
  destruct (alist_get n (g_node G)) as [old|]; simpl; [|discriminate].
  intros [= ->]. reflexivity.
Qed.

Lemma node_attr_add_edge G u v w m a :
  alist_get m (g_node (add_edge G u v w)) = Some (Some a) ->
  alist_get m (g_node G) = Some (Some a).
Proof.
  rewrite g_node_add_edge. intros H. do 2 apply node_attr_add_node_None in H.
  exact H.
Qed.

Lemma edge_add_edge_mono G u v w a b :
  wf_graph G -> is_Some (edge_weight G a b) ->
  is_Some (edge_weight (add_edge G u v w) a b).
Proof.
  intros Hwf Hs. rewrite edge_weight_add_edge by assumption.
  case_decide; eauto.
Qed.

Lemma edge_add_edge_new G u v w :
  wf_graph G -> edge_weight (add_edge G u v w) u v = Some w.
Proof.
  intros Hwf. rewrite edge_weight_add_edge by assumption.
  case_decide as H; [reflexivity|]. tauto.
Qed.

Section invariant.
Variables (data : ndarray) (weights : list Qc) (window_size : Qc).

Definition legit_marker (k : nat) (n : node) (a : marker_attr) : Prop :=
  m_dim a < k /\ exists x, n = Marker (marker_name (m_dim a) x).

(** [b] is the marker that row [a] is assigned to in dimension [d]. *)
Definition assignment (d : nat) (a b : node) : Prop :=
  exists i p, rows data !! i = Some p /\ a = Row i /\
    b = Marker (marker_name d (point_marker data window_size d p)).

Definition legit_edge (k : nat) (a b : node) (x : Qc) : Prop :=
  exists d, d < k /\ weights !! d = Some x /\
    ((exists y z, a = Marker (marker_name d y) /\ b = Marker (marker_name d z))
     \/ assignment d a b \/ assignment d b a).

(** The state of the graph once the dimensions below [ka] have been
    started and those below [kb] finished. *)
Record built (ka kb : nat) (G : Graph) : Prop := {
  built_wf : wf_graph G;
  built_rows : row_keys G = map Row (seq 0 (length (rows data)));
  built_attr : forall n a,
    alist_get n (g_node G) = Some (Some a) -> legit_marker ka n a;
  built_edge : forall a b x, edge_weight G a b = Some x -> legit_edge ka a b x;
  built_assigned : forall d i p,
    d < kb -> rows data !! i = Some p ->
    is_Some (edge_weight G (Row i)
               (Marker (marker_name d (point_marker data window_size d p))))
}.

Lemma legit_edge_sym k a b x : legit_edge k a b x -> legit_edge k b a x.
Proof.
  intros (d & Hd & Hw & [(y & z & -> & ->)|[H|H]]); exists d; repeat split; eauto.
Qed.

Lemma legit_marker_mono k k' n a : k <= k' -> legit_marker k n a -> legit_marker k' n a.
Proof. intros Hk [H1 H2]. split; [lia|assumption]. Qed.

Lemma legit_edge_mono k k' a b x : k <= k' -> legit_edge k a b x -> legit_edge k' a b x.
Proof. intros Hk (d & Hd & H). exists d. split; [lia|assumption]. Qed.

Lemma built_start k G : built k k G -> built (S k) k G.
Proof.
  intros [H1 H2 H3 H4 H5]. split; auto.
  - intros n a Hn. eapply legit_marker_mono; [|eauto]. lia.
  - intros a b x Hx. eapply legit_edge_mono; [|eauto]. lia.
Qed.

Lemma built_row_node ka kb G i :
  built ka kb G -> i < length (rows data) -> Row i ∈ node_keys G.
Proof.
  intros HG Hi.
  assert (Row i ∈ row_keys G) as Hin.
  { rewrite (built_rows _ _ _ HG). apply list_elem_of_fmap. exists i.
    split; [reflexivity|]. apply elem_of_seq. lia. }
  unfold row_keys in Hin. apply list_elem_of_filter in Hin. tauto.
Qed.

Lemma built_add_marker ka kb G d x :
  d < ka -> built ka kb G ->
  built ka kb (add_node G (Marker (marker_name d x)) (Some (MarkerAttr d x))).
Proof.
  intros Hd HG. pose proof (built_wf _ _ _ HG) as Hwf. split.
  - apply wf_add_node. assumption.
  - rewrite row_keys_add_node by discriminate. apply (built_rows _ _ _ HG).
  - intros n a. rewrite node_attr_add_node. case_decide as Hn.
    + intros [= <-]. subst n. split; simpl; eauto.
    + apply (built_attr _ _ _ HG).
  - intros a b y. rewrite edge_weight_add_node by assumption.
    apply (built_edge _ _ _ HG).
  - intros d' i p Hd' Hp. rewrite edge_weight_add_node by assumption.
    apply (built_assigned _ _ _ HG); assumption.
Qed.

Lemma built_add_edge ka kb G u v w :
  built ka kb G ->
  (is_row u = true -> u ∈ node_keys G) ->
  (is_row v = true -> v ∈ node_keys G) ->
  legit_edge ka u v w ->
  built ka kb (add_edge G u v w).
Proof.
  intros HG Hu Hv Hleg. pose proof (built_wf _ _ _ HG) as Hwf. split.
  - apply wf_add_edge. assumption.
  - rewrite row_keys_add_edge by assumption. apply (built_rows _ _ _ HG).
  - intros n a Hn. apply node_attr_add_edge in Hn.
    apply (built_attr _ _ _ HG). assumption.
  - intros a b y. rewrite edge_weight_add_edge by assumption.
    case_decide as Hp.
    + intros [= <-]. destruct Hp as [[-> ->]|[-> ->]];
        [assumption | apply legit_edge_sym; assumption].
    + apply (built_edge _ _ _ HG).
  - intros d' i p Hd' Hp. apply edge_add_edge_mono; [assumption|].
    apply (built_assigned _ _ _ HG); assumption.
Qed.

Lemma built_add_chain k kb G w n :
  weights !! k = Some w -> built (S k) kb G ->
  built (S k) kb (add_chain k w (dim_markers data window_size k) n G).
Proof.
  intros Hw HG. unfold add_chain. apply fold_left_inv; [assumption|].
  intros G' i _ HG'. apply built_add_edge; try discriminate.
  - apply built_add_marker; [lia | assumption].
  - exists k. split; [lia|]. split; [assumption|]. left. eauto.
Qed.

Lemma built_assign_rows k G w (l : list (nat * list Qc)) :
  weights !! k = Some w ->
  (forall ip, ip ∈ l -> rows data !! ip.1 = Some ip.2) ->
  built (S k) k G ->
  let G' := fold_left (fun G ip =>
              add_edge G (Row ip.1)
                (Marker (marker_name k (point_marker data window_size k ip.2))) w)
              l G in
  built (S k) k G' /\
  (forall a b, is_Some (edge_weight G a b) -> is_Some (edge_weight G' a b)) /\
  (forall ip, ip ∈ l ->
     is_Some (edge_weight G' (Row ip.1)
                (Marker (marker_name k (point_marker data window_size k ip.2))))).
Proof.
  intros Hw. revert G. induction l as [|[i p] l IH]; intros G Hl HG; simpl.
  - split; [assumption|]. split; [auto|]. intros ip Hip. inversion Hip.
  - assert (Hp : rows data !! i = Some p) by (apply (Hl (i, p)); left).
    assert (HG1 : built (S k) k
              (add_edge G (Row i)
                 (Marker (marker_name k (point_marker data window_size k p))) w)).
    { apply built_add_edge; [assumption| |discriminate|].
      - intros _. eapply built_row_node; [eassumption|].
        eapply lookup_lt_Some. eassumption.
      - exists k. split; [lia|]. split; [assumption|]. right. left.
        exists i, p. auto. }
    destruct (IH _ (fun ip Hip => Hl ip (list_elem_of_further _ _ _ Hip)) HG1)
      as (Hb & Hmono & Hnew).
    pose proof (built_wf _ _ _ HG) as Hwf.
    split; [assumption|]. split.
    + intros a b Hab. apply Hmono, edge_add_edge_mono; assumption.
    + intros ip [->|Hip]%elem_of_cons; [|auto]. simpl.
      apply Hmono. rewrite edge_add_edge_new by assumption. eauto.
Qed.

Lemma built_dimension_graph k G :
  k < length weights -> built k k G ->
  built (S k) (S k) (dimension_graph data weights window_size G k).
Proof.
  intros Hk HG. apply built_start in HG.
  assert (Hw : weights !! k = Some (nth k weights 0%Qc))
    by (apply lookup_nth_lt; assumption).
  unfold dimension_graph.
  match goal with
  | |- built _ _ (fold_left _ _ ?G0) =>
      assert (HG0 : built (S k) k G0)
  end.
  { apply built_add_chain; [assumption|].
    apply built_add_marker; [lia | assumption]. }
  assert (Hl : forall ip : nat * list Qc,
            ip ∈ imap (fun i point => (i, point)) (rows data) ->
            rows data !! ip.1 = Some ip.2).
  { intros [i p] (i' & p' & [= -> ->] & Hp)%elem_of_lookup_imap. exact Hp. }
  destruct (built_assign_rows k _ _ _ Hw Hl HG0) as (Hb & Hmono & Hnew).
  destruct Hb as [H1 H2 H3 H4 H5]. split; auto.
  intros d i p Hd Hp. destruct (decide (d = k)) as [->|Hne].
  - apply (Hnew (i, p)). apply elem_of_lookup_imap. eauto.
  - apply H5; [lia | assumption].
Qed.

Lemma node_keys_add_rows l G :
  NoDup l -> (forall n, n ∈ l -> n ∉ node_keys G) ->
  g_node (fold_left (fun G n => add_node G n None) l G) =
  g_node G ++ map (fun n => (n, None)) l.
Proof.
  revert G. induction l as [|n l IH]; intros G Hnd Hl; simpl.
  - rewrite app_nil_r. reflexivity.
  - apply list.NoDup_cons in Hnd as [Hn Hnd].
    assert (Hfresh : n ∉ node_keys G) by (apply Hl; left).
    rewrite IH; [|assumption|].
    + unfold add_node. apply alist_get_None in Hfresh. rewrite Hfresh. simpl.
      rewrite alist_set_notin by (apply alist_get_None; assumption).
      rewrite <- app_assoc. reflexivity.
    + intros m Hm. rewrite node_keys_add_node_elem.
      intros [->|Hin]; [contradiction|]. eapply Hl; [right|]; eassumption.
Qed.

Lemma wf_add_rows l G :
  wf_graph G -> wf_graph (fold_left (fun G n => add_node G n None) l G).
Proof. intros Hwf. apply fold_left_inv; auto using wf_add_node. Qed.

Lemma edge_weight_add_rows l G a b :
  wf_graph G ->
  edge_weight (fold_left (fun G n => add_node G n None) l G) a b = edge_weight G a b.
Proof.
  revert G. induction l as [|n l IH]; intros G Hwf; simpl; [reflexivity|].
  rewrite IH by auto using wf_add_node. apply edge_weight_add_node. assumption.
Qed.

Lemma rows_graph_add_rows :
  rows_graph data =
  fold_left (fun G n => add_node G n None)
    (map Row (seq 0 (length (rows data)))) empty_graph.
Proof. unfold rows_graph. rewrite fold_left_map_step. reflexivity. Qed.

Lemma NoDup_rows n : NoDup (map Row (seq 0 n)).
Proof.
  apply NoDup_fmap_2; [|apply NoDup_seq]. intros i j [= ->]. reflexivity.
Qed.

Lemma g_node_rows_graph :
  g_node (rows_graph data) =
  map (fun n => (n, None)) (map Row (seq 0 (length (rows data)))).
Proof.
  rewrite rows_graph_add_rows, node_keys_add_rows; [reflexivity|apply NoDup_rows|].
  intros n _ Hn. inversion Hn.
Qed.

Lemma filter_is_row_rows n :
  filter is_row (map Row (seq 0 n)) = map Row (seq 0 n).
Proof.
  induction (seq 0 n) as [|i l IH]; [reflexivity|]. simpl.
  rewrite filter_cons_True by reflexivity. f_equal. exact IH.
Qed.

Lemma built_rows_graph : built 0 0 (rows_graph data).
Proof.
  split.
  - rewrite rows_graph_add_rows. apply wf_add_rows, wf_empty_graph.
  - unfold row_keys, node_keys, alist_keys. rewrite g_node_rows_graph.
    rewrite map_map. simpl. rewrite map_id. apply filter_is_row_rows.
  - intros n a Hn. apply alist_get_Some_elem in Hn.
    rewrite g_node_rows_graph in Hn.
    apply list_elem_of_fmap in Hn as (m & [= _ ?] & _).
  - intros a b x. rewrite rows_graph_add_rows,
      edge_weight_add_rows by apply wf_empty_graph. discriminate.
  - intros d i p Hd. lia.
Qed.

Lemma built_dimensions n k G :
  k + n <= length weights -> built k k G ->
  built (k + n) (k + n)
    (fold_left (dimension_graph data weights window_size) (seq k n) G).
Proof.
  revert k G. induction n as [|n IH]; intros k G Hk HG; simpl.
  - rewrite Nat.add_0_r. assumption.
  - replace (k + S n) with (S k + n) by lia. apply IH; [lia|].
    apply built_dimension_graph; [lia | assumption].
Qed.

Hypothesis Hvalid : valid_input data weights window_size.

Lemma built_create_network G :
  create_network data weights window_size = inr G ->
  built (ncols data) (ncols data) G.
Proof.
  rewrite (create_network_valid _ _ _ Hvalid). intros [= <-].
  apply (built_dimensions (ncols data) 0).
  - rewrite (valid_weights _ _ _ Hvalid). simpl. lia.
  - apply built_rows_graph.
Qed.
End invariant.

(** * Where the accumulations of the collapser come from *)

Lemma ring_steps_elem nbrs w s :
  s ∈ ring_steps nbrs w -> s.1.1 ∈ nbrs /\ s.1.2 ∈ nbrs /\ s.2 = w.
Proof.
  unfold ring_steps. intros (i & -> & Hi%elem_of_seq)%list_elem_of_fmap. simpl.
  assert (Hlen : 0 < length nbrs) by lia.
  split; [|split; [|reflexivity]].
  - apply list_elem_of_In, nth_In. lia.
  - apply list_elem_of_In, nth_In. apply Nat.mod_upper_bound. lia.
Qed.

Lemma bridge_steps_elem G markers idx first w s :
  s ∈ bridge_steps G markers idx first w ->
  s.1.1 = first /\ s.2 = w /\
  exists nm v rest, markers !! (idx + 1) = Some (nm, v) /\
    row_neighbors G nm = s.1.2 :: rest.
Proof.
  unfold bridge_steps. case_decide; [|intros H'; inversion H'].
  destruct (markers !! (idx + 1)) as [[nm v]|]; [|intros H'; inversion H'].
  destruct (row_neighbors G nm) as [|nxt rest] eqn:Hn; [intros H'; inversion H'|].
  intros ->%list_elem_of_singleton. simpl. eauto 10.
Qed.

Lemma marker_steps_elem G markers idx s :
  s ∈ marker_steps G markers idx ->
  exists m v first rest,
    markers !! idx = Some (m, v) /\ row_neighbors G m = first :: rest /\
    s.2 = default 1%Qc (edge_weight G m first) /\
    ((s.1.1 ∈ row_neighbors G m /\ s.1.2 ∈ row_neighbors G m) \/
     (s.1.1 = first /\ exists nm v' rest', markers !! (idx + 1) = Some (nm, v') /\
        row_neighbors G nm = s.1.2 :: rest')).
Proof.
  unfold marker_steps. destruct (markers !! idx) as [[m v]|]; [|intros H; inversion H].
  destruct (row_neighbors G m) as [|first rest] eqn:Hn; [intros H; inversion H|].
  intros [Hs|Hs]%elem_of_app; exists m, v, first, rest.
  - apply ring_steps_elem in Hs as (H1 & H2 & H3).
    split; [reflexivity|]. split; [exact Hn|]. split; [assumption|].
    left. rewrite Hn. split; assumption.
  - apply bridge_steps_elem in Hs as (H1 & H2 & H3).
    split; [reflexivity|]. split; [exact Hn|]. split; [assumption|].
    right. split; assumption.
Qed.

Lemma row_neighbors_elem G m n :
  n ∈ row_neighbors G m <-> is_row n = true /\ n ∈ neighbors G m.
Proof.
  unfold row_neighbors. rewrite list_elem_of_filter.
  destruct (is_row n); simpl; split; intros [? ?]; split; auto; discriminate.
Qed.

Lemma row_neighbors_row_keys G m n :
  wf_graph G -> n ∈ row_neighbors G m -> n ∈ row_keys G.
Proof.
  intros Hwf [Hr Hn]%row_neighbors_elem. unfold row_keys.
  apply list_elem_of_filter. split; [rewrite Hr; exact I|].
  eapply neighbors_nodes; eassumption.
Qed.

Lemma row_neighbors_NoDup G m : wf_graph G -> NoDup (row_neighbors G m).
Proof. intros Hwf. apply list.NoDup_filter, (wf_nbrs _ Hwf). Qed.

(** Every accumulation joins two data rows of the expanded graph. *)
Lemma dim_steps_rows G markers s :
  wf_graph G -> s ∈ dim_steps G markers ->
  s.1.1 ∈ row_keys G /\ s.1.2 ∈ row_keys G.
Proof.
  intros Hwf. unfold dim_steps. intros (idx & _ & Hs)%elem_of_flat_map.
  apply marker_steps_elem in Hs as (m & v & first & rest & _ & Hn & _ & Hs).
  destruct Hs as [[H1 H2]|[H1 (nm & v' & rest' & _ & Hn')]].
  - split; eapply row_neighbors_row_keys; eassumption.
  - split; eapply row_neighbors_row_keys; try eassumption.
    + rewrite Hn, H1. left.
    + rewrite Hn'. left.
Qed.

Lemma all_steps_rows G s :
  wf_graph G -> s ∈ all_steps G -> s.1.1 ∈ row_keys G /\ s.1.2 ∈ row_keys G.
Proof.
  intros Hwf. unfold all_steps. intros (dm & _ & Hs)%elem_of_flat_map.
  eapply dim_steps_rows; eassumption.
Qed.

Lemma g_node_apply_steps steps Gp :
  (forall s, s ∈ steps -> s.1.1 ∈ node_keys Gp /\ s.1.2 ∈ node_keys Gp) ->
  g_node (fold_left apply_step steps Gp) = g_node Gp.
Proof.
  revert Gp. induction steps as [|s steps IH]; intros Gp Hs; simpl; [reflexivity|].
  assert (Hg : g_node (apply_step Gp s) = g_node Gp).
  { apply g_node_accumulate_edge; apply Hs; left. }
  rewrite IH; [exact Hg|].
  intros s' Hs'. unfold node_keys. rewrite Hg. apply Hs. right. exact Hs'.
Qed.

Lemma row_keys_NoDup G : wf_graph G -> NoDup (row_keys G).
Proof. intros Hwf. apply list.NoDup_filter, (wf_nodes _ Hwf). Qed.

Lemma g_node_init_pruned G :
  wf_graph G -> g_node (init_pruned G) = map (fun n => (n, None)) (row_keys G).
Proof.
  intros Hwf. unfold init_pruned.
  change (filter is_row (map fst (g_node G))) with (row_keys G).
  rewrite (node_keys_add_rows (row_keys G) empty_graph).
  - reflexivity.
  - apply row_keys_NoDup. assumption.
  - intros n _ Hn. inversion Hn.
Qed.

Lemma wf_init_pruned G : wf_graph (init_pruned G).
Proof. apply wf_add_rows, wf_empty_graph. Qed.

(** The reduced graph has exactly the data-row nodes of the expanded graph,
    in the same order, and no attributes. *)
Lemma g_node_prune_markers_minimal G :
  wf_graph G ->
  g_node (prune_markers_minimal G) = map (fun n => (n, None)) (row_keys G).
Proof.
  intros Hwf. rewrite prune_markers_minimal_steps, g_node_apply_steps.
  - apply g_node_init_pruned. assumption.
  - intros s Hs. unfold node_keys, alist_keys.
    rewrite g_node_init_pruned, map_map, map_id by assumption.
    apply all_steps_rows; assumption.
Qed.

Lemma wf_prune_markers_minimal G : wf_graph (prune_markers_minimal G).
Proof.
  rewrite prune_markers_minimal_steps. apply wf_apply_steps, wf_init_pruned.
Qed.

(** * The markers of a dimension, as the collapser sees them *)

(** The marker nodes whose [dim] attribute is [d], in node order, each with
    its [value] attribute. *)
Definition select_dim (d : nat) (nd : node * node_attr) : option (node * Qc) :=
  match nd.2 with
  | Some a => if decide (m_dim a = d) then Some (nd.1, m_value a) else None
  | None => None
  end.

Definition dim_nodes (G : Graph) (d : nat) : list (node * Qc) :=
  omap (select_dim d) (g_node G).

Definition group_step (acc : list (nat * list (node * Qc))) (nd : node * node_attr)
  : list (nat * list (node * Qc)) :=
  match nd.2 with
  | Some a =>
      alist_set (m_dim a)
        (default [] (alist_get (m_dim a) acc) ++ [(nd.1, m_value a)]) acc
  | None => acc
  end.

Lemma group_fold l acc d :
  default [] (alist_get d (fold_left group_step l acc)) =
  default [] (alist_get d acc) ++ omap (select_dim d) l.
Proof.
  revert acc. induction l as [|[n [a|]] l IH]; intros acc; simpl.
  - rewrite app_nil_r. reflexivity.
  - rewrite IH. unfold group_step, select_dim. simpl.
    rewrite alist_get_set. destruct (decide (d = m_dim a)) as [->|Hne].
    + rewrite decide_True by reflexivity. simpl. rewrite <- app_assoc. reflexivity.
    + rewrite decide_False by congruence. reflexivity.
  - rewrite IH. reflexivity.
Qed.

Lemma group_fold_NoDup l acc :
  NoDup (alist_keys acc) -> NoDup (alist_keys (fold_left group_step l acc)).
Proof.
  intros Hnd. apply fold_left_inv; [assumption|].
  intros acc' [n [a|]] _ Hacc; unfold group_step; simpl; [|assumption].
  apply alist_keys_set_NoDup. assumption.
Qed.

Lemma group_markers_fold G : group_markers G = fold_left group_step (g_node G) [].
Proof. reflexivity. Qed.

Lemma group_markers_elem G d ms :
  (d, ms) ∈ group_markers G -> ms = dim_nodes G d.
Proof.
  intros Hin. rewrite group_markers_fold in Hin.
  apply alist_elem_get in Hin; [|apply group_fold_NoDup, NoDup_nil_2].
  pose proof (group_fold (g_node G) [] d) as Hd. rewrite Hin in Hd. exact Hd.
Qed.

Lemma group_markers_nonempty G d :
  dim_nodes G d <> [] -> (d, dim_nodes G d) ∈ group_markers G.
Proof.
  intros Hne. pose proof (group_fold (g_node G) [] d) as Hd.
  rewrite <- group_markers_fold in Hd. simpl in Hd. fold (dim_nodes G d) in Hd.
  destruct (alist_get d (group_markers G)) as [ms|] eqn:Hg; simpl in Hd.
  - subst ms. apply alist_get_Some_elem. assumption.
  - congruence.
Qed.

Lemma insert_by_value_perm x l : insert_by_value x l ≡ₚ x :: l.
Proof.
  induction l as [|y l IH]; simpl; [reflexivity|].
  case_decide; [reflexivity|]. rewrite IH. apply Permutation_swap.
Qed.

Lemma sort_by_value_perm l : sort_by_value l ≡ₚ l.
Proof.
  induction l as [|x l IH]; simpl; [reflexivity|].
  rewrite insert_by_value_perm, IH. reflexivity.
Qed.


Lemma sorted_markers_elem G d ms :
  (d, ms) ∈ sorted_markers G -> ms = sort_by_value (dim_nodes G d).
Proof.
  unfold sorted_markers. intros ([d' ms'] & [= -> ->] & Hin)%list_elem_of_fmap.
  simpl. rewrite (group_markers_elem _ _ _ Hin). reflexivity.
Qed.

Lemma dim_nodes_elem G d m v :
  (m, v) ∈ dim_nodes G d <->
  (m, Some (MarkerAttr d v)) ∈ g_node G.
Proof.
  unfold dim_nodes. rewrite list_elem_of_omap. split.
  - intros ([n [[d' v']|]] & Hin & Hsel); unfold select_dim in Hsel; simpl in Hsel;
      [|discriminate].
    case_decide; [|discriminate]. injection Hsel as -> ->. subst d'. assumption.
  - intros Hin. exists (m, Some (MarkerAttr d v)). split; [assumption|].
    unfold select_dim. simpl. rewrite decide_True by reflexivity. reflexivity.
Qed.

Lemma dim_nodes_NoDup G d : NoDup (node_keys G) -> NoDup (map fst (dim_nodes G d)).
Proof.
  unfold dim_nodes, node_keys, alist_keys.
  induction (g_node G) as [|[n a] l IH]; simpl; [intros _; apply NoDup_nil_2|].
  intros [Hn Hnd]%list.NoDup_cons. specialize (IH Hnd).
  unfold select_dim at 1. simpl.
  destruct a as [a|]; [|exact IH]. case_decide; [|exact IH].
  simpl. apply list.NoDup_cons. split; [|exact IH].
  intros ([m v] & Hm & Hin)%list_elem_of_fmap. simpl in Hm. subst m.
  apply list_elem_of_omap in Hin as ([n' a'] & Hin & Hsel).
  unfold select_dim in Hsel. simpl in Hsel.
  destruct a' as [a'|]; [|discriminate]. case_decide; [|discriminate].
  injection Hsel as Hn' _. subst n'. apply Hn. apply list_elem_of_fmap.
  exists (n, Some a'). auto.
Qed.

Lemma sorted_markers_NoDup G d ms :
  wf_graph G -> (d, ms) ∈ sorted_markers G -> NoDup (map fst ms).
Proof.
  intros Hwf ->%sorted_markers_elem.
  rewrite sort_by_value_perm. apply dim_nodes_NoDup, (wf_nodes _ Hwf).
Qed.

Lemma sorted_markers_attr G d ms m v :
  wf_graph G -> (d, ms) ∈ sorted_markers G -> (m, v) ∈ ms ->
  alist_get m (g_node G) = Some (Some (MarkerAttr d v)).
Proof.
  intros Hwf ->%sorted_markers_elem Hin.
  rewrite sort_by_value_perm in Hin. apply dim_nodes_elem in Hin.
  apply alist_elem_get; [apply (wf_nodes _ Hwf) | assumption].
Qed.

Section built_markers.
Variables (data : ndarray) (weights : list Qc) (window_size : Qc).
Variables (ka kb : nat) (G : Graph).
Hypothesis HG : built data weights window_size ka kb G.

Lemma built_marker_node d ms m v :
  (d, ms) ∈ sorted_markers G -> (m, v) ∈ ms ->
  d < ka /\ exists x, m = Marker (marker_name d x).
Proof.
  intros Hd Hm.
  pose proof (sorted_markers_attr _ _ _ _ _ (built_wf _ _ _ _ _ _ HG) Hd Hm) as Ha.
  apply (built_attr _ _ _ _ _ _ HG) in Ha as [H1 H2]. simpl in *. auto.
Qed.

(** A data row next to a marker of dimension [d] is a row assigned to that
    marker, and the edge carries the weight of the dimension. *)
Lemma built_marker_neighbor d x r :
  r ∈ row_neighbors G (Marker (marker_name d x)) ->
  exists w, weights !! d = Some w /\
    edge_weight G (Marker (marker_name d x)) r = Some w /\
    assignment data window_size d r (Marker (marker_name d x)).
Proof.
  intros [Hr [w Hw]%neighbors_elem]%row_neighbors_elem.
  pose proof (built_edge _ _ _ _ _ _ HG _ _ _ Hw) as (d' & Hd' & Hwd & Hcase).
  destruct Hcase as [(y & z & _ & ->)|[(i & p & _ & [=] & _)|Hasg]].
  - discriminate.
  - pose proof Hasg as (i & p & Hp & -> & [= Hname]).
    apply marker_name_inj in Hname as [-> _].
    exists w. auto.
Qed.
End built_markers.

(** * Decidable equality of graphs, for the concrete scenarios *)

Global Instance exn_eq_dec : EqDecision exn.
Proof. solve_decision. Defined.

Global Instance marker_attr_eq_dec : EqDecision marker_attr.
Proof. solve_decision. Defined.

Global Instance Graph_eq_dec : EqDecision Graph.
Proof. solve_decision. Defined.

(** Evaluates a closed decidable proposition. *)
Ltac decide_by_computation :=
  apply (bool_decide_unpack _); vm_compute; exact I.

(** An edge between two markers, and an edge between a row and a marker. *)
Definition is_chain_edge (e : node * node * Qc) : bool :=
  negb (is_row e.1.1) && negb (is_row e.1.2).

Definition is_assignment_edge (e : node * node * Qc) : bool :=
  xorb (is_row e.1.1) (is_row e.1.2).

(** * The concrete scenario: values 0, 1, 2, 3, weight 1, window 2 *)

Definition scenario_data : ndarray :=
  MkArray 1 [[Qc_of_Z 0]; [Qc_of_Z 1]; [Qc_of_Z 2]; [Qc_of_Z 3]].

Definition scenario_expanded : Graph :=
  MkGraph
    [(Row 0, None); (Row 1, None); (Row 2, None); (Row 3, None);
     (Marker "0,0.0000", Some (MarkerAttr 0 (Qc_of_Z 0)));
     (Marker "0,2.0000", Some (MarkerAttr 0 (Qc_of_Z 2)));
     (Marker "0,4.0000", Some (MarkerAttr 0 (Qc_of_Z 4)))]
    [(Row 0, [(Marker "0,0.0000", Qc_of_Z 1)]);
     (Row 1, [(Marker "0,0.0000", Qc_of_Z 1)]);
     (Row 2, [(Marker "0,2.0000", Qc_of_Z 1)]);
     (Row 3, [(Marker "0,2.0000", Qc_of_Z 1)]);
     (Marker "0,0.0000",
       [(Marker "0,2.0000", Qc_of_Z 1); (Row 0, Qc_of_Z 1); (Row 1, Qc_of_Z 1)]);
     (Marker "0,2.0000",
       [(Marker "0,0.0000", Qc_of_Z 1); (Marker "0,4.0000", Qc_of_Z 1);
        (Row 2, Qc_of_Z 1); (Row 3, Qc_of_Z 1)]);
     (Marker "0,4.0000", [(Marker "0,2.0000", Qc_of_Z 1)])].

(** C1. On the matrix with one column and values 0, 1, 2, 3, weight 1 and
    window 2, [create_network] returns a graph with the four row nodes, the
    three markers at 0, 2 and 4, two chain edges and four assignment edges,
    and [prune_markers_minimal] reduces it to exactly the edges
    (0,1) of weight 2, (0,2) of weight 1 and (2,3) of weight 2. *)
Theorem C1_concrete_scenario :
  create_network scenario_data [Qc_of_Z 1] (Qc_of_Z 2) = inr scenario_expanded /\
  row_keys scenario_expanded = [Row 0; Row 1; Row 2; Row 3] /\
  dim_nodes scenario_expanded 0 =
    [(Marker "0,0.0000", Qc_of_Z 0); (Marker "0,2.0000", Qc_of_Z 2);
     (Marker "0,4.0000", Qc_of_Z 4)] /\
  marker_nodes (show_node_counts scenario_expanded) = 3 /\
  data_nodes (show_node_counts scenario_expanded) = 4 /\
  length (filter is_chain_edge (edges scenario_expanded)) = 2 /\
  length (filter is_assignment_edge (edges scenario_expanded)) = 4 /\
  length (edges scenario_expanded) = 6 /\
  node_keys (prune_markers_minimal scenario_expanded) = [Row 0; Row 1; Row 2; Row 3] /\
  edges (prune_markers_minimal scenario_expanded) =
    [(Row 0, Row 1, Qc_of_Z 2); (Row 0, Row 2, Qc_of_Z 1); (Row 2, Row 3, Qc_of_Z 2)] /\
  construct_net scenario_data [Qc_of_Z 1] (Qc_of_Z 2) =
    inr (prune_markers_minimal scenario_expanded).
Proof.
  assert (Hbuild : create_network scenario_data [Qc_of_Z 1] (Qc_of_Z 2)
                   = inr scenario_expanded) by decide_by_computation.
  split; [exact Hbuild|].
  repeat split; decide_by_computation.
Qed.

Lemma scenario_valid : valid_input scenario_data [Qc_of_Z 1] (Qc_of_Z 2).
Proof.
  split.
  - unfold wf_array. simpl. repeat constructor.
  - simpl. lia.
  - reflexivity.
  - repeat constructor.
  - reflexivity.
Qed.

Lemma scenario_built :
  create_network scenario_data [Qc_of_Z 1] (Qc_of_Z 2) = inr scenario_expanded.
Proof. decide_by_computation. Qed.

(** * The reduced graph keeps the data rows *)

(** C6. For every valid input, every data-row node of the expanded graph is a
    node of the reduced graph, and the reduced graph has exactly [R] nodes,
    the rows [0 .. R-1] in order. *)
Theorem C6_reduced_graph_nodes data weights window_size G :
  valid_input data weights window_size ->
  create_network data weights window_size = inr G ->
  (forall n, is_row n = true -> n ∈ node_keys G ->
             n ∈ node_keys (prune_markers_minimal G)) /\
  length (g_node (prune_markers_minimal G)) = length (rows data) /\
  node_keys (prune_markers_minimal G) = map Row (seq 0 (length (rows data))).
Proof.
  intros Hvalid Hbuild.
  pose proof (built_create_network _ _ _ Hvalid _ Hbuild) as HB.
  pose proof (built_wf _ _ _ _ _ _ HB) as Hwf.
  assert (Hkeys : node_keys (prune_markers_minimal G) = row_keys G).
  { unfold node_keys, alist_keys.
    rewrite g_node_prune_markers_minimal, map_map, map_id by assumption.
    reflexivity. }
  split; [|split].
  - intros n Hr Hn. rewrite Hkeys. unfold row_keys.
    apply list_elem_of_filter. split; [rewrite Hr; exact I | assumption].
  - rewrite g_node_prune_markers_minimal, length_map by assumption.
    rewrite (built_rows _ _ _ _ _ _ HB), length_map, length_seq. reflexivity.
  - rewrite Hkeys. apply (built_rows _ _ _ _ _ _ HB).
Qed.

Lemma C6_reduced_graph_nodes_witness :
  length (g_node (prune_markers_minimal scenario_expanded)) = 4.
Proof.
  exact (proj1 (proj2 (C6_reduced_graph_nodes scenario_data [Qc_of_Z 1] (Qc_of_Z 2)
                         scenario_expanded scenario_valid scenario_built))).
Defined.

(** * Determinism *)

(** C9. Two runs of build-then-collapse on the same matrix, weights and
    window give equal results: the same node set and the same edges with the
    same accumulated weights. *)
Theorem C9_construct_net_deterministic data weights window_size r1 r2 :
  construct_net data weights window_size = r1 ->
  construct_net data weights window_size = r2 ->
  r1 = r2 /\
  forall G1 G2, r1 = inr G1 -> r2 = inr G2 ->
    node_keys G1 = node_keys G2 /\ edges G1 = edges G2 /\
    forall a b, edge_weight G1 a b = edge_weight G2 a b.
Proof.
  intros <- <-. split; [reflexivity|].
  intros G1 G2 -> [= ->]. auto.
Qed.

Lemma C9_construct_net_deterministic_witness :
  construct_net scenario_data [Qc_of_Z 1] (Qc_of_Z 2) =
  construct_net scenario_data [Qc_of_Z 1] (Qc_of_Z 2).
Proof.
  exact (proj1 (C9_construct_net_deterministic scenario_data [Qc_of_Z 1] (Qc_of_Z 2)
                  _ _ eq_refl eq_refl)).
Defined.

(** * Rings and bridges *)

Lemma Qc_of_nat_S n : Qc_of_nat (S n) = (1 + Qc_of_nat n)%Qc.
Proof.
  apply Qc_is_canon. unfold Qc_of_nat. rewrite this_plus, !this_of_Z, this_Q2Qc.
  rewrite Nat2Z.inj_succ, <- Z.add_1_l, inject_Z_plus. reflexivity.
Qed.

Lemma Qc_of_nat_0 : Qc_of_nat 0 = 0%Qc.
Proof. apply Qc_is_canon. reflexivity. Qed.

(** The number of ring steps of [nbrs] that fall on the pair [{a, b}]. *)
Definition ring_count (nbrs : list node) (a b : node) : nat :=
  length (filter
    (fun k => same_pair (nth k nbrs (Row 0))
                (nth ((k + 1) mod length nbrs) nbrs (Row 0)) a b = true)
    (seq 0 (length nbrs))).

Lemma steps_weight_map (f g : nat -> node) (w : Qc) (a b : node) (l : list nat) :
  steps_weight a b (map (fun i => (f i, g i, w)) l) =
  (Qc_of_nat (length (filter (fun i => same_pair (f i) (g i) a b = true) l)) * w)%Qc.
Proof.
  induction l as [|i l IH]; simpl.
  - rewrite Qc_of_nat_0. ring.
  - rewrite IH. destruct (same_pair (f i) (g i) a b) eqn:Hp.
    + rewrite filter_cons_True by assumption. simpl length.
      rewrite Qc_of_nat_S. ring.
    + rewrite filter_cons_False by congruence. ring.
Qed.

Lemma weight_of_connect_ring nbrs w Gp a b :
  wf_graph Gp ->
  weight_of (connect_ring nbrs w Gp) a b =
  (weight_of Gp a b + Qc_of_nat (ring_count nbrs a b) * w)%Qc.
Proof.
  intros Hwf. rewrite connect_ring_steps, weight_of_apply_steps by assumption.
  unfold ring_steps, ring_count. rewrite steps_weight_map. reflexivity.
Qed.

Lemma has_edge_apply_steps_mono steps Gp a b :
  wf_graph Gp -> has_edge Gp a b = true ->
  has_edge (fold_left apply_step steps Gp) a b = true.
Proof.
  revert Gp. induction steps as [|s steps IH]; intros Gp Hwf He; simpl; [assumption|].
  apply IH; [apply wf_accumulate_edge; assumption|].
  unfold apply_step. rewrite has_edge_accumulate_edge, He by assumption.
  apply orb_true_r.
Qed.

Lemma has_edge_apply_steps steps Gp s :
  wf_graph Gp -> s ∈ steps ->
  has_edge (fold_left apply_step steps Gp) s.1.1 s.1.2 = true.
Proof.
  revert Gp. induction steps as [|s' steps IH]; intros Gp Hwf Hs; [inversion Hs|].
  simpl. apply elem_of_cons in Hs as [->|Hs].
  - apply has_edge_apply_steps_mono; [apply wf_accumulate_edge; assumption|].
    unfold apply_step. rewrite has_edge_accumulate_edge by assumption.
    unfold same_pair. rewrite bool_decide_eq_true_2 by auto. reflexivity.
  - apply IH; [apply wf_accumulate_edge|]; assumption.
Qed.

Section built_rings.
Variables (data : ndarray) (weights : list Qc) (window_size : Qc) (G : Graph).
Hypothesis Hvalid : valid_input data weights window_size.
Hypothesis Hbuild : create_network data weights window_size = inr G.

(** The weight the collapser reads off the first assignment edge of a
    marker is the weight of the marker's dimension. *)
Lemma marker_weight d ms m v first rest :
  (d, ms) ∈ sorted_markers G -> (m, v) ∈ ms ->
  row_neighbors G m = first :: rest ->
  exists w, weights !! d = Some w /\ edge_weight G m first = Some w.
Proof.
  intros Hd Hm Hn.
  pose proof (built_create_network _ _ _ Hvalid _ Hbuild) as HB.
  destruct (built_marker_node _ _ _ _ _ _ HB _ _ _ _ Hd Hm) as [_ [x ->]].
  destruct (built_marker_neighbor _ _ _ _ _ _ HB d x first) as (w & Hw & He & _).
  { rewrite Hn. left. }
  eauto.
Qed.

Lemma process_marker_nonempty d ms idx m v first rest w Gp :
  (d, ms) ∈ sorted_markers G -> ms !! idx = Some (m, v) ->
  row_neighbors G m = first :: rest -> weights !! d = Some w ->
  process_marker G ms Gp idx =
    connect_next G ms idx first w (connect_ring (first :: rest) w Gp) /\
  marker_steps G ms idx =
    ring_steps (first :: rest) w ++ bridge_steps G ms idx first w.
Proof.
  intros Hd Hm Hn Hw.
  destruct (marker_weight d ms m v first rest Hd) as (w' & Hw' & He);
    [eapply list_elem_of_lookup_2; eassumption | assumption |].
  assert (w' = w) as -> by congruence.
  unfold process_marker, marker_steps. rewrite Hm, Hn, He. simpl. auto.
Qed.
End built_rings.

(** C3. For a marker whose list [N] of data-row neighbours is non-empty, the
    collapser accumulates, for each [k] below [|N|], the weight of the
    marker's dimension on the edge between [N[k]] and [N[(k+1) mod |N|]]:
    weights are summed, never overwritten.  A single neighbour gets a
    self-loop; two neighbours get one edge with twice the weight. *)
Theorem C3_ring_accumulation data weights window_size G d ms idx m v Gp :
  valid_input data weights window_size ->
  create_network data weights window_size = inr G ->
  (d, ms) ∈ sorted_markers G -> ms !! idx = Some (m, v) ->
  row_neighbors G m <> [] -> wf_graph Gp ->
  exists w first,
    weights !! d = Some w /\ head (row_neighbors G m) = Some first /\
    let N := row_neighbors G m in
    let Gr := connect_ring N w Gp in
    process_marker G ms Gp idx = connect_next G ms idx first w Gr /\
    (forall a b,
       weight_of Gr a b = (weight_of Gp a b + Qc_of_nat (ring_count N a b) * w)%Qc) /\
    (forall k, k < length N ->
       has_edge Gr (nth k N (Row 0)) (nth ((k + 1) mod length N) N (Row 0)) = true) /\
    (forall r, N = [r] ->
       has_edge Gr r r = true /\ weight_of Gr r r = (weight_of Gp r r + w)%Qc) /\
    (forall r s, N = [r; s] ->
       weight_of Gr r s = (weight_of Gp r s + (w + w))%Qc).
Proof.
  intros Hvalid Hbuild Hd Hm Hne Hwf.
  destruct (row_neighbors G m) as [|first rest] eqn:Hn; [congruence|].
  assert (Hin : (m, v) ∈ ms) by (eapply list_elem_of_lookup_2; eassumption).
  destruct (marker_weight _ _ _ _ Hvalid Hbuild _ _ _ _ _ _ Hd Hin Hn)
    as (w & Hw & He).
  exists w, first. split; [assumption|]. split; [reflexivity|]. cbv zeta.
  split; [|split; [|split; [|split]]].
  - eapply process_marker_nonempty; eassumption.
  - intros a b. apply weight_of_connect_ring. assumption.
  - intros k Hk. rewrite connect_ring_steps.
    apply (has_edge_apply_steps _ _
             (nth k (first :: rest) (Row 0),
              nth ((k + 1) mod length (first :: rest)) (first :: rest) (Row 0), w));
      [assumption|].
    unfold ring_steps. apply list_elem_of_fmap. exists k. split; [reflexivity|].
    apply elem_of_seq. lia.
  - intros r [= -> ->]. unfold connect_ring. simpl.
    rewrite has_edge_accumulate_edge, weight_of_accumulate_edge by assumption.
    unfold same_pair. rewrite bool_decide_eq_true_2 by auto. auto.
  - intros r s [= -> ->]. unfold connect_ring. simpl.
    rewrite !weight_of_accumulate_edge by auto using wf_accumulate_edge.
    unfold same_pair. rewrite !bool_decide_eq_true_2 by auto. ring.
Qed.

Lemma C3_ring_accumulation_witness :
  exists w first,
    [Qc_of_Z 1] !! 0 = Some w /\
    head (row_neighbors scenario_expanded (Marker "0,0.0000")) = Some first /\
    let N := row_neighbors scenario_expanded (Marker "0,0.0000") in
    let Gr := connect_ring N w (init_pruned scenario_expanded) in
    process_marker scenario_expanded
      [(Marker "0,0.0000", Qc_of_Z 0); (Marker "0,2.0000", Qc_of_Z 2);
       (Marker "0,4.0000", Qc_of_Z 4)] (init_pruned scenario_expanded) 0 =
    connect_next scenario_expanded
      [(Marker "0,0.0000", Qc_of_Z 0); (Marker "0,2.0000", Qc_of_Z 2);
       (Marker "0,4.0000", Qc_of_Z 4)] 0 first w Gr /\
    (forall a b,
       weight_of Gr a b =
       (weight_of (init_pruned scenario_expanded) a b
        + Qc_of_nat (ring_count N a b) * w)%Qc) /\
    (forall k, k < length N ->
       has_edge Gr (nth k N (Row 0)) (nth ((k + 1) mod length N) N (Row 0)) = true) /\
    (forall r, N = [r] ->
       has_edge Gr r r = true /\
       weight_of Gr r r = (weight_of (init_pruned scenario_expanded) r r + w)%Qc) /\
    (forall r s, N = [r; s] ->
       weight_of Gr r s =
       (weight_of (init_pruned scenario_expanded) r s + (w + w))%Qc).
Proof.
  apply (C3_ring_accumulation scenario_data [Qc_of_Z 1] (Qc_of_Z 2)
           scenario_expanded 0 _ 0 (Marker "0,0.0000") (Qc_of_Z 0)
           (init_pruned scenario_expanded) scenario_valid scenario_built).
  - decide_by_computation.
  - reflexivity.
  - vm_compute. discriminate.
  - apply wf_init_pruned.
Defined.

Lemma wf_connect_ring nbrs w Gp : wf_graph Gp -> wf_graph (connect_ring nbrs w Gp).
Proof. intros Hwf. rewrite connect_ring_steps. apply wf_apply_steps. assumption. Qed.

(** C2. In the ascending marker order of a dimension, a marker [m_i] that is
    not last and whose neighbour list and whose successor's neighbour list
    are both non-empty gets exactly one bridge accumulation: between the
    first elements of the two lists, with the weight of the dimension.  A
    marker with no data-row neighbour produces nothing: no ring step, no
    bridge to its successor, and no bridge from its predecessor. *)
Theorem C2_bridge_edge data weights window_size G d ms w Gp :
  valid_input data weights window_size ->
  create_network data weights window_size = inr G ->
  (d, ms) ∈ sorted_markers G -> weights !! d = Some w -> wf_graph Gp ->
  (forall idx m v m' v' r rest r' rest',
     ms !! idx = Some (m, v) -> ms !! S idx = Some (m', v') ->
     row_neighbors G m = r :: rest -> row_neighbors G m' = r' :: rest' ->
     bridge_steps G ms idx r w = [(r, r', w)] /\
     marker_steps G ms idx = ring_steps (r :: rest) w ++ [(r, r', w)] /\
     process_marker G ms Gp idx =
       accumulate_edge (connect_ring (r :: rest) w Gp) r r' w /\
     has_edge (process_marker G ms Gp idx) r r' = true /\
     forall a b,
       weight_of (process_marker G ms Gp idx) a b =
       (weight_of (connect_ring (r :: rest) w Gp) a b
        + (if same_pair r r' a b then w else 0))%Qc) /\
  (forall idx m v,
     ms !! idx = Some (m, v) -> row_neighbors G m = [] ->
     marker_steps G ms idx = [] /\ process_marker G ms Gp idx = Gp /\
     forall p first w' Gp',
       S p = idx ->
       bridge_steps G ms p first w' = [] /\
       connect_next G ms p first w' Gp' = Gp').
Proof.
  intros Hvalid Hbuild Hd Hw Hwf. split.
  - intros idx m v m' v' r rest r' rest' Hm Hm' Hn Hn'.
    destruct (process_marker_nonempty _ _ _ _ Hvalid Hbuild
                _ _ _ _ _ _ _ _ Gp Hd Hm Hn Hw) as [Hp Hs].
    assert (Hlt : idx < length ms - 1).
    { apply lookup_lt_Some in Hm'. lia. }
    assert (Hb : bridge_steps G ms idx r w = [(r, r', w)]).
    { unfold bridge_steps. rewrite decide_True by assumption.
      rewrite Nat.add_1_r, Hm', Hn'. reflexivity. }
    assert (Hp' : process_marker G ms Gp idx =
                  accumulate_edge (connect_ring (r :: rest) w Gp) r r' w).
    { rewrite Hp. unfold connect_next. rewrite decide_True by assumption.
      rewrite Nat.add_1_r, Hm', Hn'. reflexivity. }
    pose proof (wf_connect_ring (r :: rest) w Gp Hwf) as Hwf'.
    split; [assumption|]. split; [rewrite Hs, Hb; reflexivity|].
    split; [assumption|]. rewrite Hp'. split.
    + rewrite has_edge_accumulate_edge by assumption.
      unfold same_pair. rewrite bool_decide_eq_true_2 by auto. reflexivity.
    + intros a b. apply weight_of_accumulate_edge. assumption.
  - intros idx m v Hm Hn. unfold marker_steps, process_marker. rewrite Hm, Hn.
    split; [reflexivity|]. split; [reflexivity|].
    intros p first w' Gp' <-. unfold bridge_steps, connect_next.
    case_decide; [|auto]. rewrite Nat.add_1_r, Hm, Hn. auto.
Qed.

Lemma C2_bridge_edge_witness :
  process_marker scenario_expanded
    [(Marker "0,0.0000", Qc_of_Z 0); (Marker "0,2.0000", Qc_of_Z 2);
     (Marker "0,4.0000", Qc_of_Z 4)] (init_pruned scenario_expanded) 0 =
  accumulate_edge
    (connect_ring [Row 0; Row 1] (Qc_of_Z 1) (init_pruned scenario_expanded))
    (Row 0) (Row 2) (Qc_of_Z 1).
Proof.
  refine (proj1 (proj2 (proj2 (proj1
    (C2_bridge_edge scenario_data [Qc_of_Z 1] (Qc_of_Z 2) scenario_expanded 0
       [(Marker "0,0.0000", Qc_of_Z 0); (Marker "0,2.0000", Qc_of_Z 2);
        (Marker "0,4.0000", Qc_of_Z 4)] (Qc_of_Z 1) (init_pruned scenario_expanded)
       scenario_valid scenario_built _ _ _)
    0 (Marker "0,0.0000") (Qc_of_Z 0) (Marker "0,2.0000") (Qc_of_Z 2)
    (Row 0) [Row 1] (Row 2) [Row 3] _ _ _ _)))).
  - decide_by_computation.
  - reflexivity.
  - apply wf_init_pruned.
  - reflexivity.
  - reflexivity.
  - reflexivity.
  - reflexivity.
Defined.

(** * Floor binning *)




(** * Invalid input *)

(** C7, as stated, fails: the builder has no validation step.  A weight
    vector longer than the number of columns is accepted (the extra weight is
    never read), a negative window can yield a graph, and an empty matrix
    without columns yields the empty graph. *)
Lemma C7_counterexample :
  length [Qc_of_Z 1; Qc_of_Z 5] <> ncols scenario_data /\
  create_network scenario_data [Qc_of_Z 1; Qc_of_Z 5] (Qc_of_Z 2)
    = inr scenario_expanded /\
  (exists G, create_network scenario_data [Qc_of_Z 1] (Qc_of_Z (-2)) = inr G) /\
  create_network (MkArray 0 []) [Qc_of_Z 1] (Qc_of_Z 2) = inr empty_graph.
Proof.
  split; [simpl; lia|]. split; [decide_by_computation|]. split.
  - destruct (create_network scenario_data [Qc_of_Z 1] (Qc_of_Z (-2))) as [e|G] eqn:H.
    + exfalso. vm_compute in H. discriminate.
    + eauto.
  - reflexivity.
Qed.

Lemma foldM_fails {A B} (f : A -> B -> result A) (l : list B) (a : A) (b : B) :
  b ∈ l -> (forall a', exists e, f a' b = inl e) -> exists e, foldM f l a = inl e.
Proof.
  intros Hb Hf. revert a. induction l as [|b' l IH]; intros a; [inversion Hb|].
  simpl. destruct (f a b') as [e|a'] eqn:Hfa; [eauto|]. simpl.
  apply elem_of_cons in Hb as [->|Hb].
  - destruct (Hf a) as [e He]. congruence.
  - apply IH. assumption.
Qed.

Lemma foldM_ext_in {A B} (f g : A -> B -> result A) (l : list B) (a : A) :
  (forall a' b, b ∈ l -> f a' b = g a' b) -> foldM f l a = foldM g l a.
Proof.
  revert a. induction l as [|b l IH]; intros a Hfg; simpl; [reflexivity|].
  rewrite Hfg by left. destruct (g a b) as [e|a']; simpl; [reflexivity|].
  apply IH. intros a'' b' Hb'. apply Hfg. right. assumption.
Qed.

Lemma add_dimension_no_weight data weights window_size G d :
  length weights <= d -> add_dimension data weights window_size G d = inl IndexError.
Proof.
  intros Hd. unfold add_dimension.
  rewrite (proj2 (lookup_ge_None weights d)) by assumption. reflexivity.
Qed.

Lemma add_dimension_empty data weights window_size G d :
  rows data = [] -> exists e, add_dimension data weights window_size G d = inl e.
Proof.
  intros Hrows. unfold add_dimension, column. rewrite Hrows.
  destruct (weights !! d); cbn [bind ret raise map np_max]; eauto.
Qed.

Lemma add_dimension_zero_window data weights G d :
  exists e, add_dimension data weights 0%Qc G d = inl e.
Proof.
  unfold add_dimension.
  destruct (weights !! d); cbn [bind ret raise]; [|eauto].
  destruct (np_max (column data d)); cbn [bind]; [eauto|].
  destruct (np_min (column data d)); cbn [bind]; [eauto|].
  unfold py_int_div. rewrite decide_True by reflexivity.
  case_decide; cbn [bind raise]; eauto.
Qed.

(** C7, amended.  The builder has no validation step and no [InvalidInput]
    error.  It fails, with the Python exception of the first operation that
    cannot proceed ([ValueError], [IndexError] or [OverflowError]) and
    without returning a graph, when the matrix has no row but at least one
    column, when there are fewer weights than columns, and when the window
    is zero and there is at least one column.  Weights beyond the number of
    columns are ignored. *)
Theorem C7_invalid_input data weights window_size :
  ((rows data = [] /\ 1 <= ncols data) \/
   length weights < ncols data \/
   (window_size = 0%Qc /\ 1 <= ncols data) ->
   exists e, create_network data weights window_size = inl e) /\
  (forall extra,
     ncols data <= length weights ->
     create_network data (weights ++ extra) window_size =
     create_network data weights window_size).
Proof.
  split.
  - unfold create_network.
    intros [[Hrows HD]|[Hlen|[-> HD]]].
    + apply (foldM_fails _ _ _ 0); [apply elem_of_seq; lia|].
      intros G. apply add_dimension_empty. assumption.
    + apply (foldM_fails _ _ _ (length weights)); [apply elem_of_seq; lia|].
      intros G. exists IndexError. apply add_dimension_no_weight. lia.
    + apply (foldM_fails _ _ _ 0); [apply elem_of_seq; lia|].
      intros G. apply add_dimension_zero_window.
  - intros extra Hlen. unfold create_network. apply foldM_ext_in.
    intros G d Hd%elem_of_seq. unfold add_dimension.
    rewrite lookup_app_l by lia. reflexivity.
Qed.

Lemma C7_invalid_input_witness :
  exists e, create_network scenario_data [] (Qc_of_Z 2) = inl e.
Proof.
  apply (proj1 (C7_invalid_input scenario_data [] (Qc_of_Z 2))).
  right. left. simpl. lia.
Defined.

(** * How much one dimension adds at one row *)

(** An accumulation touches [r] when [r] is one of its endpoints. *)
Definition touches (r : node) (s : step) : bool :=
  bool_decide (s.1.1 = r \/ s.1.2 = r).

(** The total weight that a sequence of accumulations adds to edges incident
    to [r]; a self-loop step counts once. *)
Definition incident_weight (r : node) (steps : list step) : Qc :=
  foldr (fun s acc => ((if touches r s then s.2 else 0) + acc)%Qc) 0%Qc steps.

Definition touch_count (r : node) (steps : list step) : nat :=
  length (filter (fun s => touches r s = true) steps).

Lemma touch_count_app r s1 s2 :
  touch_count r (s1 ++ s2) = touch_count r s1 + touch_count r s2.
Proof. unfold touch_count. rewrite list.filter_app, length_app. reflexivity. Qed.

Lemma touch_count_none r steps :
  (forall s, s ∈ steps -> touches r s = false) -> touch_count r steps = 0.
Proof.
  unfold touch_count. induction steps as [|s steps IH]; intros Hs; [reflexivity|].
  rewrite filter_cons_False by (rewrite Hs by left; discriminate).
  apply IH. intros s' Hs'. apply Hs. right. assumption.
Qed.

Lemma touch_count_length r steps : touch_count r steps <= length steps.
Proof. apply length_filter. Qed.

Lemma incident_weight_count r w steps :
  (forall s, s ∈ steps -> s.2 = w) ->
  incident_weight r steps = (Qc_of_nat (touch_count r steps) * w)%Qc.
Proof.
  unfold touch_count. induction steps as [|s steps IH]; intros Hw; simpl.
  - rewrite Qc_of_nat_0. ring.
  - rewrite IH by (intros s' Hs'; apply Hw; right; assumption).
    rewrite (Hw s) by left. destruct (touches r s) eqn:Ht.
    + rewrite filter_cons_True by assumption. simpl length.
      rewrite Qc_of_nat_S. ring.
    + rewrite filter_cons_False by congruence. ring.
Qed.

Lemma filter_at_most_one {A} (P : A -> Prop) `{forall x, Decision (P x)} (l : list A) :
  NoDup l -> (forall x y, x ∈ l -> y ∈ l -> P x -> P y -> x = y) ->
  length (filter P l) <= 1.
Proof.
  induction l as [|x l IH]; intros Hnd Huniq; [simpl; lia|].
  apply list.NoDup_cons in Hnd as [Hx Hnd].
  destruct (decide (P x)) as [HPx|HPx].
  - rewrite filter_cons_True by assumption. simpl.
    assert (filter P l = []) as ->; [|simpl; lia].
    destruct (filter P l) as [|y l'] eqn:Hf; [reflexivity|]. exfalso.
    assert (Hy : y ∈ filter P l) by (rewrite Hf; left).
    apply list_elem_of_filter in Hy as [HPy Hy].
    assert (x = y) by (apply Huniq; [left | right | |]; assumption).
    subst y. contradiction.
  - rewrite filter_cons_False by assumption. apply IH; [assumption|].
    intros a b Ha Hb. apply Huniq; right; assumption.
Qed.

Lemma filter_or_length {A} (P Q : A -> Prop)
    `{forall x, Decision (P x)} `{forall x, Decision (Q x)} (l : list A) :
  length (filter (fun x => P x \/ Q x) l) <= length (filter P l) + length (filter Q l).
Proof.
  induction l as [|x l IH]; [simpl; lia|].
  destruct (decide (P x)) as [HP|HP], (decide (Q x)) as [HQ|HQ].
  - rewrite !filter_cons_True by tauto. simpl. lia.
  - rewrite (filter_cons_True (fun x => P x \/ Q x)), (filter_cons_True P),
      (filter_cons_False Q) by tauto. simpl. lia.
  - rewrite (filter_cons_True (fun x => P x \/ Q x)), (filter_cons_False P),
      (filter_cons_True Q) by tauto. simpl. lia.
  - rewrite !filter_cons_False by tauto. exact IH.
Qed.

Lemma succ_mod_inj n i j :
  i < n -> j < n -> (i + 1) mod n = (j + 1) mod n -> i = j.
Proof.
  intros Hi Hj.
  destruct (decide (i + 1 = n)) as [Ei|Ei], (decide (j + 1 = n)) as [Ej|Ej].
  - lia.
  - rewrite Ei, Nat.Div0.mod_same, (Nat.mod_small (j + 1)) by lia. lia.
  - rewrite Ej, Nat.Div0.mod_same, (Nat.mod_small (i + 1)) by lia. lia.
  - rewrite !Nat.mod_small by lia. lia.
Qed.

Lemma nth_NoDup_inj (nbrs : list node) i j :
  NoDup nbrs -> i < length nbrs -> j < length nbrs ->
  nth i nbrs (Row 0) = nth j nbrs (Row 0) -> i = j.
Proof.
  intros Hnd Hi Hj Heq.
  pose proof (lookup_nth_lt nbrs i (Row 0) Hi) as H1.
  pose proof (lookup_nth_lt nbrs j (Row 0) Hj) as H2.
  rewrite Heq in H1. eapply NoDup_lookup; eassumption.
Qed.

(** A row of a ring is an endpoint of at most two of the ring's steps. *)
Lemma ring_touch_count r nbrs w :
  NoDup nbrs -> touch_count r (ring_steps nbrs w) <= 2.
Proof.
  intros Hnd. unfold touch_count, ring_steps.
  set (n := length nbrs).
  set (f := fun i : nat => (nth i nbrs (Row 0), nth ((i + 1) mod n) nbrs (Row 0), w)).
  assert (Hlen : forall l : list nat,
    length (filter (fun s => touches r s = true) (map f l)) =
    length (filter (fun i => nth i nbrs (Row 0) = r \/
                             nth ((i + 1) mod n) nbrs (Row 0) = r) l)).
  { induction l as [|i l IH]; [reflexivity|]. simpl map.
    destruct (decide (nth i nbrs (Row 0) = r \/ nth ((i + 1) mod n) nbrs (Row 0) = r))
      as [Hi|Hi].
    - assert (Ht : touches r (f i) = true)
        by (unfold touches, f; simpl; apply bool_decide_eq_true_2; assumption).
      rewrite (filter_cons_True (fun s => touches r s = true)) by assumption.
      rewrite (filter_cons_True (fun i => _ \/ _)) by assumption.
      simpl length. f_equal. exact IH.
    - assert (Ht : touches r (f i) <> true).
      { unfold touches, f. simpl. rewrite bool_decide_eq_false_2 by assumption.
        discriminate. }
      rewrite (filter_cons_False (fun s => touches r s = true)) by assumption.
      rewrite (filter_cons_False (fun i => _ \/ _)) by assumption.
      exact IH. }
  rewrite Hlen. etrans; [apply filter_or_length|].
  assert (length (filter (fun i => nth i nbrs (Row 0) = r) (seq 0 n)) <= 1) as H1.
  { apply filter_at_most_one; [apply NoDup_seq|].
    intros i j Hi%elem_of_seq Hj%elem_of_seq Hri Hrj.
    apply (nth_NoDup_inj nbrs); [assumption|lia|lia|congruence]. }
  assert (length (filter (fun i => nth ((i + 1) mod n) nbrs (Row 0) = r) (seq 0 n)) <= 1)
    as H2.
  { apply filter_at_most_one; [apply NoDup_seq|].
    intros i j Hi%elem_of_seq Hj%elem_of_seq Hri Hrj.
    apply (succ_mod_inj n); [lia|lia|].
    apply (nth_NoDup_inj nbrs); [assumption| | |congruence];
      apply Nat.mod_upper_bound; lia. }
  lia.
Qed.

Lemma ring_touch_count_0 r nbrs w :
  r ∉ nbrs -> touch_count r (ring_steps nbrs w) = 0.
Proof.
  intros Hr. apply touch_count_none. intros s (H1 & H2 & _)%ring_steps_elem.
  unfold touches. apply bool_decide_eq_false_2. intros [<-|<-]; contradiction.
Qed.

(** The collapser by structural recursion on the marker list: the steps of
    a marker depend on the marker and on its successor only. *)
Definition unit_steps (G : Graph) (m : node) (next : option (node * Qc)) : list step :=
  match row_neighbors G m with
  | [] => []
  | first :: _ =>
      let weight := default 1%Qc (edge_weight G m first) in
      ring_steps (row_neighbors G m) weight ++
      match next with
      | Some (next_marker, _) =>
          match row_neighbors G next_marker with
          | next_node :: _ => [(first, next_node, weight)]
          | [] => []
          end
      | None => []
      end
  end.

Fixpoint chain_steps (G : Graph) (ms : list (node * Qc)) : list step :=
  match ms with
  | [] => []
  | mv :: rest => unit_steps G mv.1 (head rest) ++ chain_steps G rest
  end.

Lemma marker_steps_unit G pre m v rest :
  marker_steps G (pre ++ (m, v) :: rest) (length pre) = unit_steps G m (head rest).
Proof.
  unfold marker_steps, unit_steps.
  rewrite list_lookup_middle by reflexivity.
  destruct (row_neighbors G m) as [|first nbrs]; [reflexivity|].
  f_equal. unfold bridge_steps. rewrite length_app. simpl length.
  destruct rest as [|[nm v'] rest]; simpl.
  - rewrite decide_False by lia. reflexivity.
  - rewrite decide_True by lia.
    replace (pre ++ (m, v) :: (nm, v') :: rest)
      with ((pre ++ [(m, v)]) ++ (nm, v') :: rest) by (rewrite <- app_assoc; reflexivity).
    rewrite list_lookup_middle by (rewrite length_app; simpl; lia).
    reflexivity.
Qed.

Lemma dim_steps_chain_from G pre ms :
  flat_map (marker_steps G (pre ++ ms)) (seq (length pre) (length ms)) =
  chain_steps G ms.
Proof.
  revert pre. induction ms as [|[m v] rest IH]; intros pre; [reflexivity|].
  simpl. rewrite marker_steps_unit. f_equal.
  specialize (IH (pre ++ [(m, v)])).
  rewrite <- app_assoc, length_app in IH. simpl in IH.
  rewrite Nat.add_1_r in IH. exact IH.
Qed.

Lemma dim_steps_chain G ms : dim_steps G ms = chain_steps G ms.
Proof. apply (dim_steps_chain_from G []). Qed.

Section touch_bound.
Variables (G : Graph) (r : node).
Hypothesis Hwf : wf_graph G.

Lemma unit_touch_host m next : touch_count r (unit_steps G m next) <= 3.
Proof.
  unfold unit_steps. destruct (row_neighbors G m) as [|first nbrs] eqn:Hn;
    [etrans; [apply touch_count_length|]; simpl; lia|].
  rewrite touch_count_app.
  pose proof (ring_touch_count r (first :: nbrs)
                (default 1%Qc (edge_weight G m first))) as Hring.
  rewrite <- Hn in Hring. specialize (Hring (row_neighbors_NoDup G m Hwf)).
  rewrite Hn in Hring.
  match goal with
  | |- _ + touch_count r ?b <= _ =>
      assert (touch_count r b <= 1) as Hb
  end.
  { etrans; [apply touch_count_length|].
    destruct next as [[nm v]|]; [|simpl; lia].
    destruct (row_neighbors G nm); simpl; lia. }
  lia.
Qed.

Lemma unit_touch_guest m next :
  r ∉ row_neighbors G m ->
  touch_count r (unit_steps G m next) <= 1 /\
  ((forall nm v, next = Some (nm, v) -> r ∉ row_neighbors G nm) ->
   touch_count r (unit_steps G m next) = 0).
Proof.
  intros Hr. unfold unit_steps.
  destruct (row_neighbors G m) as [|first nbrs] eqn:Hn.
  { split; [etrans; [apply touch_count_length|]; simpl; lia | reflexivity]. }
  rewrite touch_count_app, ring_touch_count_0 by assumption. simpl.
  split.
  - etrans; [apply touch_count_length|].
    destruct next as [[nm v]|]; [|simpl; lia].
    destruct (row_neighbors G nm); simpl; lia.
  - intros Hnext. destruct next as [[nm v]|]; [|reflexivity].
    destruct (row_neighbors G nm) as [|nxt rest] eqn:Hnm; [reflexivity|].
    apply touch_count_none. intros s ->%list_elem_of_singleton.
    unfold touches. simpl. apply bool_decide_eq_false_2. intros [<-|<-].
    + apply Hr. left.
    + apply (Hnext nm v eq_refl). rewrite Hnm. left.
Qed.

(** With at most one marker of the list hosting [r], at most four steps
    of the dimension touch [r]: two ring steps, the bridge to the next
    ring and the bridge from the previous ring. *)
Lemma chain_touch_count ms :
  NoDup (map fst ms) ->
  (forall m m', m ∈ map fst ms -> m' ∈ map fst ms ->
     r ∈ row_neighbors G m -> r ∈ row_neighbors G m' -> m = m') ->
  touch_count r (chain_steps G ms) <= 4 /\
  (forall m v rest, ms = (m, v) :: rest -> r ∈ row_neighbors G m ->
     touch_count r (chain_steps G ms) <= 3) /\
  ((forall m, m ∈ map fst ms -> r ∉ row_neighbors G m) ->
   touch_count r (chain_steps G ms) = 0).
Proof.
  induction ms as [|[m v] rest IH]; intros Hnd Huniq.
  { simpl. split; [etrans; [apply touch_count_length|]; simpl; lia|].
    split; [discriminate | reflexivity]. }
  simpl map in *. apply list.NoDup_cons in Hnd as [Hm Hnd].
  destruct (IH Hnd) as (IH4 & IH3 & IH0).
  { intros a b Ha Hb. apply Huniq; right; assumption. }
  simpl chain_steps. rewrite touch_count_app.
  assert (Hhead : forall nm v', head rest = Some (nm, v') -> nm ∈ map fst rest).
  { intros nm v' Hh. destruct rest as [|[? ?] ?]; [discriminate|].
    injection Hh as -> ->. left. }
  assert (Hnone : (forall m', m' ∈ map fst rest -> r ∉ row_neighbors G m') ->
                  r ∉ row_neighbors G m ->
                  touch_count r (unit_steps G m (head rest))
                  + touch_count r (chain_steps G rest) = 0).
  { intros Hrest Hr. rewrite (IH0 Hrest).
    rewrite (proj2 (unit_touch_guest m (head rest) Hr)); [reflexivity|].
    intros nm v' Hh. apply Hrest. eapply Hhead. eassumption. }
  assert (Hhost : r ∈ row_neighbors G m ->
                  touch_count r (unit_steps G m (head rest))
                  + touch_count r (chain_steps G rest) <= 3).
  { intros Hr. rewrite IH0.
    - pose proof (unit_touch_host m (head rest)). lia.
    - intros m' Hm' Hr'. apply Hm.
      rewrite (Huniq m m'); [assumption|left|right; assumption|assumption..]. }
  split; [|split].
  - destruct (decide (r ∈ row_neighbors G m)) as [Hr|Hr]; [specialize (Hhost Hr); lia|].
    destruct (unit_touch_guest m (head rest) Hr) as [H1 H0].
    destruct rest as [|[nm v'] rest'].
    + simpl in *. rewrite H0 by discriminate.
      pose proof (touch_count_length r []). simpl in *. lia.
    + destruct (decide (r ∈ row_neighbors G nm)) as [Hr'|Hr'].
      * specialize (IH3 nm v' rest' eq_refl Hr'). lia.
      * rewrite H0; [lia|]. simpl. intros ? ? [= <- <-]. assumption.
  - intros m0 v0 rest0 [= <- <- <-]. exact Hhost.
  - intros Hall. apply Hnone.
    + intros m' Hm'. apply Hall. right. assumption.
    + apply Hall. left.
Qed.
End touch_bound.

Section built_hosts.
Variables (data : ndarray) (weights : list Qc) (window_size : Qc) (G : Graph).
Hypothesis Hvalid : valid_input data weights window_size.
Hypothesis Hbuild : create_network data weights window_size = inr G.

(** In one dimension a data row is next to one marker only. *)
Lemma built_host_unique d ms m m' r :
  (d, ms) ∈ sorted_markers G -> m ∈ map fst ms -> m' ∈ map fst ms ->
  r ∈ row_neighbors G m -> r ∈ row_neighbors G m' -> m = m'.
Proof.
  intros Hd ([m1 v]&Hm1&Hm)%list_elem_of_fmap ([m2 v']&Hm2&Hm')%list_elem_of_fmap Hr Hr'.
  simpl in *. subst m1 m2.
  pose proof (built_create_network _ _ _ Hvalid _ Hbuild) as HB.
  destruct (built_marker_node _ _ _ _ _ _ HB _ _ _ _ Hd Hm) as [_ [x ->]].
  destruct (built_marker_node _ _ _ _ _ _ HB _ _ _ _ Hd Hm') as [_ [x' ->]].
  destruct (built_marker_neighbor _ _ _ _ _ _ HB d x r Hr)
    as (_ & _ & _ & i & p & Hp & -> & ->).
  destruct (built_marker_neighbor _ _ _ _ _ _ HB d x' (Row i) Hr')
    as (_ & _ & _ & i' & p' & Hp' & [= <-] & ->).
  congruence.
Qed.

Lemma dim_steps_weight d ms w s :
  (d, ms) ∈ sorted_markers G -> weights !! d = Some w ->
  s ∈ dim_steps G ms -> s.2 = w.
Proof.
  intros Hd Hw (idx & _ & Hs)%elem_of_flat_map.
  apply marker_steps_elem in Hs as (m & v & first & rest & Hm & Hn & -> & _).
  destruct (marker_weight _ _ _ _ Hvalid Hbuild d ms m v first rest Hd)
    as (w' & Hw' & ->); [eapply list_elem_of_lookup_2; eassumption|assumption|].
  simpl. congruence.
Qed.
End built_hosts.

(** The accumulated weight on the edges between [r] and the nodes of [L] *)
Definition total_weight (G : Graph) (r : node) (L : list node) : Qc :=
  foldr (fun b acc => (weight_of G r b + acc)%Qc) 0%Qc L.

Lemma sum_indicator (L : list node) (c : node) (w : Qc) :
  NoDup L -> c ∈ L ->
  foldr (fun b acc => ((if bool_decide (b = c) then w else 0) + acc)%Qc) 0%Qc L = w.
Proof.
  induction L as [|b L IH]; intros Hnd Hc; [inversion Hc|].
  apply list.NoDup_cons in Hnd as [Hb Hnd]. simpl.
  destruct (decide (b = c)) as [->|Hne].
  - rewrite bool_decide_eq_true_2 by reflexivity.
    assert (foldr (fun b acc => ((if bool_decide (b = c) then w else 0) + acc)%Qc)
              0%Qc L = 0%Qc) as ->; [|ring].
    clear IH Hc Hnd. induction L as [|b L IH]; [reflexivity|]. simpl.
    apply not_elem_of_cons in Hb as [Hne Hb].
    rewrite bool_decide_eq_false_2 by congruence. rewrite IH by assumption. ring.
  - rewrite bool_decide_eq_false_2 by assumption.
    apply elem_of_cons in Hc as [->|Hc]; [congruence|].
    rewrite IH by assumption. ring.
Qed.

Lemma sum_same_pair (L : list node) (r u v : node) (w : Qc) :
  NoDup L -> u ∈ L -> v ∈ L ->
  foldr (fun b acc => ((if same_pair u v r b then w else 0) + acc)%Qc) 0%Qc L =
  if touches r (u, v, w) then w else 0%Qc.
Proof.
  intros Hnd Hu Hv. unfold touches. simpl.
  destruct (decide (u = r \/ v = r)) as [Ht|Ht].
  - rewrite bool_decide_eq_true_2 by assumption.
    set (c := if decide (r = u) then v else u).
    assert (Hc : c ∈ L) by (unfold c; case_decide; assumption).
    etrans; [|apply (sum_indicator L c w Hnd Hc)].
    apply foldr_ext; [|reflexivity..]. intros b acc. f_equal.
    unfold same_pair. assert (Hiff : (r = u /\ b = v) \/ (r = v /\ b = u) <-> b = c).
    { unfold c. case_decide as Hru.
      - subst u. split; [intros [[_ ?]|[-> ->]]; congruence | auto].
      - split; [intros [[? _]|[_ ?]]; congruence|].
        intros ->. destruct Ht as [?|?]; [congruence | auto]. }
    destruct (decide (b = c)) as [Hb|Hb].
    + rewrite !bool_decide_eq_true_2 by tauto. reflexivity.
    + rewrite !bool_decide_eq_false_2 by tauto. reflexivity.
  - rewrite bool_decide_eq_false_2 by assumption.
    induction L as [|b L IH]; [reflexivity|]. simpl.
    apply list.NoDup_cons in Hnd as [_ Hnd].
    unfold same_pair at 1. rewrite bool_decide_eq_false_2.
    + assert (Hrest : foldr (fun b acc =>
                  ((if same_pair u v r b then w else 0) + acc)%Qc) 0%Qc L = 0%Qc).
      { clear -Ht. induction L as [|b' L IH]; [reflexivity|]. simpl.
        unfold same_pair at 1. rewrite bool_decide_eq_false_2.
        - rewrite IH. ring.
        - intros [[-> _]|[-> _]]; tauto. }
      rewrite Hrest. ring.
    + intros [[-> _]|[-> _]]; tauto.
Qed.

(** Summed over the nodes, the weights that a sequence of accumulations puts
    on the pairs [{r, b}] is the weight of the steps that touch [r]. *)
Lemma incident_weight_pairs (L : list node) (r : node) (steps : list step) :
  NoDup L -> (forall s, s ∈ steps -> s.1.1 ∈ L /\ s.1.2 ∈ L) ->
  foldr (fun b acc => (steps_weight r b steps + acc)%Qc) 0%Qc L =
  incident_weight r steps.
Proof.
  intros Hnd. induction steps as [|[[u v] w] steps IH]; intros Hs.
  - simpl. clear. induction L as [|b L IH]; [reflexivity|]. simpl. rewrite IH. ring.
  - simpl. rewrite <- IH by (intros s Hin; apply Hs; right; assumption).
    destruct (Hs (u, v, w)) as [Hu Hv]; [left|]. simpl in Hu, Hv.
    rewrite <- (sum_same_pair L r u v w Hnd Hu Hv).
    clear. induction L as [|b L IH]; simpl; [ring|]. rewrite IH. ring.
Qed.

Lemma total_weight_apply_steps (L : list node) (r : node) steps Gp :
  wf_graph Gp -> NoDup L -> (forall s, s ∈ steps -> s.1.1 ∈ L /\ s.1.2 ∈ L) ->
  total_weight (fold_left apply_step steps Gp) r L =
  (total_weight Gp r L + incident_weight r steps)%Qc.
Proof.
  intros Hwf Hnd Hs. rewrite <- (incident_weight_pairs L r steps Hnd Hs).
  unfold total_weight. clear Hnd Hs.
  induction L as [|b L IH]; simpl; [ring|].
  rewrite IH, weight_of_apply_steps by assumption. ring.
Qed.

(** The rows 0, 1, 2 with window 2: rows 0 and 1 share the first bin and
    row 2 sits alone in the second. *)
Definition three_rows : ndarray :=
  MkArray 1 [[Qc_of_Z 0]; [Qc_of_Z 1]; [Qc_of_Z 2]].

Definition three_rows_expanded : Graph :=
  MkGraph
    [(Row 0, None); (Row 1, None); (Row 2, None);
     (Marker "0,0.0000", Some (MarkerAttr 0 (Qc_of_Z 0)));
     (Marker "0,2.0000", Some (MarkerAttr 0 (Qc_of_Z 2)));
     (Marker "0,4.0000", Some (MarkerAttr 0 (Qc_of_Z 4)))]
    [(Row 0, [(Marker "0,0.0000", Qc_of_Z 1)]);
     (Row 1, [(Marker "0,0.0000", Qc_of_Z 1)]);
     (Row 2, [(Marker "0,2.0000", Qc_of_Z 1)]);
     (Marker "0,0.0000",
       [(Marker "0,2.0000", Qc_of_Z 1); (Row 0, Qc_of_Z 1); (Row 1, Qc_of_Z 1)]);
     (Marker "0,2.0000",
       [(Marker "0,0.0000", Qc_of_Z 1); (Marker "0,4.0000", Qc_of_Z 1);
        (Row 2, Qc_of_Z 1)]);
     (Marker "0,4.0000", [(Marker "0,2.0000", Qc_of_Z 1)])].

Definition three_rows_markers : list (node * Qc) :=
  [(Marker "0,0.0000", Qc_of_Z 0); (Marker "0,2.0000", Qc_of_Z 2);
   (Marker "0,4.0000", Qc_of_Z 4)].

(** C8, as stated, fails: with weight 1, the single dimension adds weight 3
    at row 0 (the two ring steps of the pair {0, 1} and the bridge to row
    2), which is more than twice the weight. *)
Lemma C8_counterexample :
  create_network three_rows [Qc_of_Z 1] (Qc_of_Z 2) = inr three_rows_expanded /\
  sorted_markers three_rows_expanded = [(0, three_rows_markers)] /\
  dim_steps three_rows_expanded three_rows_markers =
    [(Row 0, Row 1, Qc_of_Z 1); (Row 1, Row 0, Qc_of_Z 1);
     (Row 0, Row 2, Qc_of_Z 1); (Row 2, Row 2, Qc_of_Z 1)] /\
  incident_weight (Row 0) (dim_steps three_rows_expanded three_rows_markers)
    = Qc_of_Z 3 /\
  ~ (incident_weight (Row 0) (dim_steps three_rows_expanded three_rows_markers)
     ≤ Qc_of_Z 2 * Qc_of_Z 1)%Qc /\
  edges (prune_markers_minimal three_rows_expanded) =
    [(Row 0, Row 1, Qc_of_Z 2); (Row 0, Row 2, Qc_of_Z 1); (Row 2, Row 2, Qc_of_Z 1)].
Proof. repeat split; decide_by_computation. Qed.

(** C8, amended. For every valid input, dimension [d] and row [r], the steps
    of dimension [d] add at most four times [weights[d]] to the edges
    incident to [r]: at most two ring steps, the bridge to the next ring and
    the bridge from the previous ring touch [r], each with weight
    [weights[d]].  Accordingly the total weight of the reduced-graph edges at
    [r] grows by at most that much while the dimension is processed. *)
Theorem C8_dimension_contribution data weights window_size G d ms w r :
  valid_input data weights window_size ->
  create_network data weights window_size = inr G ->
  (d, ms) ∈ sorted_markers G -> weights !! d = Some w ->
  (forall Gp,
     fold_left (process_marker G ms) (seq 0 (length ms)) Gp =
     fold_left apply_step (dim_steps G ms) Gp) /\
  (forall s, s ∈ dim_steps G ms -> s.2 = w) /\
  touch_count r (dim_steps G ms) <= 4 /\
  (incident_weight r (dim_steps G ms) ≤ Qc_of_Z 4 * w)%Qc /\
  (forall Gp,
     wf_graph Gp ->
     (total_weight (fold_left (process_marker G ms) (seq 0 (length ms)) Gp)
        r (row_keys G)
      ≤ total_weight Gp r (row_keys G) + Qc_of_Z 4 * w)%Qc).
Proof.
  intros Hvalid Hbuild Hd Hw.
  pose proof (built_create_network _ _ _ Hvalid _ Hbuild) as HB.
  pose proof (built_wf _ _ _ _ _ _ HB) as Hwf.
  assert (Hweights : forall s, s ∈ dim_steps G ms -> s.2 = w).
  { intros s. eapply dim_steps_weight; eassumption. }
  assert (Hcount : touch_count r (dim_steps G ms) <= 4).
  { rewrite dim_steps_chain. apply chain_touch_count; [assumption| |].
    - eapply sorted_markers_NoDup; eassumption.
    - intros m m'. eapply built_host_unique; eassumption. }
  assert (Hbound : (incident_weight r (dim_steps G ms) ≤ Qc_of_Z 4 * w)%Qc).
  { rewrite (incident_weight_count r w) by assumption.
    apply Qcmult_le_compat_r.
    - unfold Qc_of_nat. apply (proj1 (Qc_of_Z_le _ 4)). lia.
    - apply Qclt_le_weak.
      apply (Forall_lookup_1 _ _ _ _ (valid_positive _ _ _ Hvalid) Hw). }
  split; [intros Gp; apply process_dimension_steps|].
  split; [assumption|]. split; [assumption|]. split; [assumption|].
  intros Gp HwfGp. rewrite process_dimension_steps.
  rewrite total_weight_apply_steps;
    [|assumption|apply row_keys_NoDup; assumption
     |intros s Hs; apply dim_steps_rows with (markers := ms); assumption].
  apply Qcplus_le_compat; [apply Qcle_refl | assumption].
Qed.

Lemma C8_dimension_contribution_witness :
  (incident_weight (Row 0) (dim_steps three_rows_expanded three_rows_markers)
   ≤ Qc_of_Z 4 * Qc_of_Z 1)%Qc.
Proof.
  refine (proj1 (proj2 (proj2 (proj2
    (C8_dimension_contribution three_rows [Qc_of_Z 1] (Qc_of_Z 2)
       three_rows_expanded 0 three_rows_markers (Qc_of_Z 1) (Row 0) _ _ _ _))))).
  - split.
    + unfold wf_array. simpl. repeat constructor.
    + simpl. lia.
    + reflexivity.
    + repeat constructor.
    + reflexivity.
  - decide_by_computation.
  - decide_by_computation.
  - reflexivity.
Defined.

(** * The marker nodes when keys cannot collide

    A marker key shows four decimals.  With a window above 0.0001 the
    markers of a dimension are more than 0.0001 apart, so their keys differ
    and every marker value gets a node of its own. *)



Section marker_values.
Variables (data : ndarray) (window_size : Qc).
Hypothesis Hpositive : (0 < window_size)%Qc.







End marker_values.

Section exact.
Variables (data : ndarray) (weights : list Qc) (window_size : Qc).
Hypothesis Hvalid : valid_input data weights window_size.
Hypothesis Hwindow : (Q2Qc (1 # 10000) < window_size)%Qc.












End exact.

(** * Marker count and bin boundaries *)

Definition count_step (acc : list (nat * nat)) (nd : node * node_attr)
  : list (nat * nat) :=
  match nd.2 with
  | Some a => alist_set (m_dim a) (S (default 0 (alist_get (m_dim a) acc))) acc
  | None => acc
  end.

Lemma count_fold l acc d :
  default 0 (alist_get d (fold_left count_step l acc)) =
  default 0 (alist_get d acc) + length (omap (select_dim d) l).
Proof.
  revert acc. induction l as [|[n [a|]] l IH]; intros acc; simpl fold_left.
  - simpl. lia.
  - rewrite IH. unfold count_step at 1. cbn [snd].
    rewrite alist_get_set. change (omap (select_dim d) ((n, Some a) :: l))
      with (match select_dim d (n, Some a) with
            | Some y => y :: omap (select_dim d) l
            | None => omap (select_dim d) l
            end).
    unfold select_dim at 2. cbn [snd fst].
    destruct (decide (d = m_dim a)) as [->|Hne].
    + rewrite decide_True by reflexivity. simpl. lia.
    + rewrite decide_False by congruence. reflexivity.
  - rewrite IH. reflexivity.
Qed.

(** The per-dimension count of [show_node_counts] is the number of marker
    nodes of the dimension. *)
Lemma show_node_counts_dim G d :
  default 0 (alist_get d (markers_by_dim (show_node_counts G))) =
  length (dim_nodes G d).
Proof.
  unfold show_node_counts. cbn [markers_by_dim].
  change (default 0 (alist_get d (fold_left count_step (g_node G) []))
          = length (dim_nodes G d)).
  rewrite count_fold. reflexivity.
Qed.





(** Two rows 2^-16 apart with a window of 2^-16: the three marker values
    0, 2^-16 and 2^-15 all print as 0.0000 and share one node. *)
Definition tiny_window : Qc := Q2Qc (1 # 65536).

Definition tiny_data : ndarray := MkArray 1 [[Qc_of_Z 0]; [tiny_window]].


Lemma tiny_valid : valid_input tiny_data [Qc_of_Z 1] tiny_window.
Proof.
  split.
  - unfold wf_array. simpl. repeat constructor.
  - simpl. lia.
  - reflexivity.
  - repeat constructor.
  - reflexivity.
Qed.




(** * The last marker of a dimension *)




(** * Further properties of the lattice builder *)



(** X2. In the graph built from a valid input no edge joins two data rows,
    no edge joins markers of two different dimensions, and every edge carries
    the weight of the dimension of its marker endpoint, also where a later
    [add_edge] on the same pair of keys has overwritten an earlier one. *)
Theorem expanded_graph_edges data weights window_size G :
  valid_input data weights window_size ->
  create_network data weights window_size = inr G ->
  (forall i j, has_edge G (Row i) (Row j) = false) /\
  (forall d d' x y w,
     edge_weight G (Marker (marker_name d x)) (Marker (marker_name d' y)) = Some w ->
     d = d' /\ d < ncols data /\ weights !! d = Some w) /\
  (forall i d x w,
     edge_weight G (Row i) (Marker (marker_name d x)) = Some w ->
     i < length (rows data) /\ d < ncols data /\ weights !! d = Some w) /\
  (forall a b w, edge_weight G a b = Some w -> (0 < w)%Qc).
Proof.
  intros Hvalid Hbuild.
  pose proof (built_create_network _ _ _ Hvalid _ Hbuild) as HB.
  split; [|split; [|split]].
  - intros i j. destruct (has_edge G (Row i) (Row j)) eqn:He; [|reflexivity].
    apply has_edge_true in He as [w Hw].
    pose proof (built_edge _ _ _ _ _ _ HB _ _ _ Hw) as (d & _ & _ & Hcase).
    destruct Hcase as [(y & z & [=] & _)|[(i' & p' & _ & _ & [=])|
                                        (i' & p' & _ & _ & [=])]].
  - intros d d' x y w Hw.
    pose proof (built_edge _ _ _ _ _ _ HB _ _ _ Hw) as (e & He & Hwe & Hcase).
    destruct Hcase as [(y' & z' & [= Ha] & [= Hb])|[(i' & p' & _ & [=] & _)|
                                                   (i' & p' & _ & [=] & _)]].
    apply marker_name_inj in Ha as [-> _]. apply marker_name_inj in Hb as [-> _].
    split; [reflexivity|]. split; assumption.
  - intros i d x w Hw.
    pose proof (built_edge _ _ _ _ _ _ HB _ _ _ Hw) as (e & He & Hwe & Hcase).
    destruct Hcase as [(y' & z' & [=] & _)|[(i' & p' & Hp' & [= <-] & [= Hb])|
                                           (i' & p' & _ & [=] & _)]].
    apply marker_name_inj in Hb as [-> _].
    split; [eapply lookup_lt_Some; eassumption|]. split; assumption.
  - intros a b w Hw.
    pose proof (built_edge _ _ _ _ _ _ HB _ _ _ Hw) as (e & He & Hwe & _).
    pose proof (valid_positive _ _ _ Hvalid) as Hpos.
    rewrite Forall_forall in Hpos. apply Hpos.
    apply list_elem_of_In. eapply list_elem_of_lookup_2. eassumption.
Qed.

Lemma expanded_graph_edges_witness :
  has_edge scenario_expanded (Row 0) (Row 1) = false.
Proof.
  exact (proj1 (expanded_graph_edges scenario_data [Qc_of_Z 1] (Qc_of_Z 2)
                  scenario_expanded scenario_valid scenario_built) 0 1).
Defined.






(** * Node counts *)

Lemma sum_counts_set (acc : list (nat * nat)) (d : nat) :
  foldr Nat.add 0 (map snd (alist_set d (S (default 0 (alist_get d acc))) acc)) =
  S (foldr Nat.add 0 (map snd acc)).
Proof.
  induction acc as [|[k c] acc IH]; [reflexivity|].
  cbn [alist_set alist_get]. destruct (decide (d = k)) as [->|Hne].
  - cbn. reflexivity.
  - cbn [map foldr snd]. rewrite IH. lia.
Qed.

Lemma sum_counts_fold l acc :
  foldr Nat.add 0 (map snd (fold_left count_step l acc)) =
  foldr Nat.add 0 (map snd acc) + length (filter (fun nd => is_marker nd.2 = true) l).
Proof.
  revert acc. induction l as [|[n [a|]] l IH]; intros acc; cbn [fold_left].
  - rewrite filter_nil. cbn. lia.
  - rewrite IH. unfold count_step. cbn [snd].
    rewrite sum_counts_set, filter_cons_True by reflexivity. cbn [length]. lia.
  - rewrite IH. unfold count_step. cbn [snd].
    rewrite filter_cons_False by (cbn; discriminate). reflexivity.
Qed.

Lemma count_data_markers (l : list (node * node_attr)) :
  length (filter (fun nd => negb (is_marker nd.2)) l) +
  length (filter (fun nd => is_marker nd.2 = true) l) = length l.
Proof.
  induction l as [|[n [a|]] l IH]; [reflexivity| |].
  - rewrite filter_cons_False by (cbn; tauto).
    rewrite filter_cons_True by reflexivity. cbn [length]. lia.
  - rewrite filter_cons_True by (cbn; exact I).
    rewrite filter_cons_False by (cbn; discriminate). cbn [length]. lia.
Qed.

Lemma count_fold_key l acc d c :
  alist_get d (fold_left count_step l acc) = Some c ->
  is_Some (alist_get d acc) \/ omap (select_dim d) l <> [].
Proof.
  revert acc. induction l as [|[n [a|]] l IH]; intros acc Hc; cbn [fold_left] in Hc.
  - left. eexists. exact Hc.
  - apply IH in Hc. unfold count_step in Hc. cbn [snd] in Hc.
    destruct (decide (m_dim a = d)) as [Hd|Hd].
    + right. cbn. unfold select_dim. cbn [snd]. rewrite decide_True by exact Hd.
      discriminate.
    + destruct Hc as [Hc|Hc].
      * left. rewrite alist_get_set in Hc.
        destruct (decide (d = m_dim a)) as [->|_]; [congruence | exact Hc].
      * right. cbn. unfold select_dim at 1. cbn [snd].
        rewrite decide_False by exact Hd. exact Hc.
  - apply IH in Hc. unfold count_step in Hc. cbn [snd] in Hc.
    destruct Hc as [Hc|Hc]; [left; exact Hc | right; exact Hc].
Qed.

(** X5. For every graph the two counts of [show_node_counts] partition the
    nodes: data nodes plus marker nodes is the number of nodes.  The marker
    total is the sum of the per-dimension counts, every recorded dimension
    has at least one marker, and its count is the number of marker nodes
    whose [dim] attribute is that dimension. *)
Theorem show_node_counts_partition (G : Graph) :
  data_nodes (show_node_counts G) + marker_nodes (show_node_counts G)
    = length (g_node G) /\
  marker_nodes (show_node_counts G)
    = foldr Nat.add 0 (map snd (markers_by_dim (show_node_counts G))) /\
  marker_nodes (show_node_counts G)
    = length (filter (fun nd => is_marker nd.2 = true) (g_node G)) /\
  (forall d c,
     alist_get d (markers_by_dim (show_node_counts G)) = Some c ->
     1 <= c /\ c = length (dim_nodes G d)) /\
  (forall d,
     alist_get d (markers_by_dim (show_node_counts G)) = None ->
     dim_nodes G d = []).
Proof.
  assert (Hby : markers_by_dim (show_node_counts G) = fold_left count_step (g_node G) [])
    by reflexivity.
  assert (Hm : marker_nodes (show_node_counts G)
               = length (filter (fun nd => is_marker nd.2 = true) (g_node G))).
  { change (marker_nodes (show_node_counts G))
      with (foldr Nat.add 0 (map snd (fold_left count_step (g_node G) []))).
    rewrite sum_counts_fold. reflexivity. }
  split; [|split; [|split; [|split]]].
  - rewrite Hm. apply count_data_markers.
  - reflexivity.
  - exact Hm.
  - intros d c Hc. pose proof (show_node_counts_dim G d) as Hd. rewrite Hc in Hd.
    change (c = length (dim_nodes G d)) in Hd. split; [|exact Hd].
    rewrite Hby in Hc. apply count_fold_key in Hc as [[x Hx]|Hne]; [discriminate|].
    fold (dim_nodes G d) in Hne. rewrite Hd.
    destruct (dim_nodes G d); [congruence | cbn; lia].
  - intros d Hc. pose proof (show_node_counts_dim G d) as Hd. rewrite Hc in Hd.
    change (0 = length (dim_nodes G d)) in Hd.
    destruct (dim_nodes G d); [reflexivity | discriminate].
Qed.

(** ** Marker keys always carry the marker attributes *)

Definition markers_attributed (G : Graph) : Prop :=
  forall nm, alist_get (Marker nm) (g_node G) <> Some None.

Lemma attributed_add_marker G nm a :
  markers_attributed G -> markers_attributed (add_node G (Marker nm) (Some a)).
Proof.
  intros H nm'. rewrite node_attr_add_node. case_decide; [discriminate | apply H].
Qed.

Lemma node_keys_add_node_mono G n a m :
  m ∈ node_keys G -> m ∈ node_keys (add_node G n a).
Proof. intros Hm. apply node_keys_add_node_elem. right. exact Hm. Qed.

Lemma node_keys_add_edge_present G u v w :
  u ∈ node_keys G -> v ∈ node_keys G -> node_keys (add_edge G u v w) = node_keys G.
Proof. intros Hu Hv. unfold node_keys. rewrite g_node_add_edge_present; auto. Qed.

Lemma attributed_add_edge G u v w :
  u ∈ node_keys G -> v ∈ node_keys G ->
  markers_attributed G -> markers_attributed (add_edge G u v w).
Proof. intros Hu Hv H nm. rewrite g_node_add_edge_present by assumption. apply H. Qed.

Lemma attributed_chain d w markers len a G :
  1 <= a -> markers_attributed G ->
  Marker (marker_name d (nth (a - 1) markers 0%Qc)) ∈ node_keys G ->
  let G' := fold_left (fun G i =>
      let G := add_node G (Marker (marker_name d (nth i markers 0%Qc)))
                 (Some (MarkerAttr d (nth i markers 0%Qc))) in
      add_edge G (Marker (marker_name d (nth (i - 1) markers 0%Qc)))
                 (Marker (marker_name d (nth i markers 0%Qc))) w)
    (seq a len) G in
  markers_attributed G' /\
  (forall n, n ∈ node_keys G -> n ∈ node_keys G') /\
  (forall j, a <= j < a + len ->
     Marker (marker_name d (nth j markers 0%Qc)) ∈ node_keys G').
Proof.
  revert a G. induction len as [|len IH]; intros a G Ha Hattr Hprev; cbv zeta.
  - cbn [seq fold_left]. split; [assumption|]. split; [auto|]. intros j Hj. lia.
  - cbn [seq fold_left].
    set (G1 := add_node G (Marker (marker_name d (nth a markers 0%Qc)))
                 (Some (MarkerAttr d (nth a markers 0%Qc)))).
    assert (Hcur : Marker (marker_name d (nth a markers 0%Qc)) ∈ node_keys G1)
      by (apply node_keys_add_node_elem; left; reflexivity).
    assert (Hprev1 : Marker (marker_name d (nth (a - 1) markers 0%Qc)) ∈ node_keys G1)
      by (apply node_keys_add_node_mono; exact Hprev).
    set (G2 := add_edge G1 (Marker (marker_name d (nth (a - 1) markers 0%Qc)))
                 (Marker (marker_name d (nth a markers 0%Qc))) w).
    assert (Hkeys : node_keys G2 = node_keys G1)
      by (apply node_keys_add_edge_present; assumption).
    destruct (IH (S a) G2) as (H1 & H2 & H3).
    + lia.
    + apply attributed_add_edge; [assumption..|].
      apply attributed_add_marker. exact Hattr.
    + replace (S a - 1) with a by lia. rewrite Hkeys. exact Hcur.
    + cbv zeta in H1, H2, H3. split; [exact H1|]. split.
      * intros n Hn. apply H2. rewrite Hkeys. apply node_keys_add_node_mono. exact Hn.
      * intros j Hj. destruct (decide (j = a)) as [->|Hne].
        -- apply H2. rewrite Hkeys. exact Hcur.
        -- apply H3. lia.
Qed.

Section attributed.
Variables (data : ndarray) (weights : list Qc) (window_size : Qc).
Hypothesis Hvalid : valid_input data weights window_size.

Lemma attributed_dimension_graph k G :
  built data weights window_size k k G -> markers_attributed G ->
  markers_attributed (dimension_graph data weights window_size G k).
Proof.
  intros HB Hattr. unfold dimension_graph, add_chain.
  set (markers := dim_markers data window_size k).
  set (w := nth k weights 0%Qc).
  set (G1 := add_node G (Marker (marker_name k (nth 0 markers 0%Qc)))
               (Some (MarkerAttr k (nth 0 markers 0%Qc)))).
  assert (H0 : Marker (marker_name k (nth 0 markers 0%Qc)) ∈ node_keys G1)
    by (apply node_keys_add_node_elem; left; reflexivity).
  destruct (attributed_chain k w markers (Z.to_nat (bin_count data window_size k)) 1 G1)
    as (H1 & H2 & H3).
  { lia. }
  { apply attributed_add_marker. exact Hattr. }
  { exact H0. }
  cbv zeta in H1, H2, H3.
  match goal with |- markers_attributed (fold_left ?f ?l ?G2) =>
    assert (markers_attributed (fold_left f l G2) /\
            node_keys (fold_left f l G2) = node_keys G2) as [? _]; [|assumption];
    apply (fold_left_inv (fun G' => markers_attributed G' /\ node_keys G' = node_keys G2))
  end.
  - split; [exact H1 | reflexivity].
  - intros G' [i p] Hip [HG' Hk]. cbn [fst snd].
    apply elem_of_lookup_imap in Hip as (i' & p' & [= -> ->] & Hp).
    assert (Hrow : Row i' ∈ node_keys G').
    { rewrite Hk. apply H2. apply node_keys_add_node_mono.
      apply (built_row_node _ _ _ _ _ _ _ HB). eapply lookup_lt_Some. exact Hp. }
    assert (Hmk : Marker (marker_name k (point_marker data window_size k p'))
                  ∈ node_keys G').
    { rewrite Hk. unfold point_marker. fold markers.
      pose proof (point_index_range _ _ _ Hvalid k _ _ Hp) as Hidx.
      destruct (decide (Z.to_nat (point_index data window_size k p') = 0)) as [->|Hne].
      - apply H2. exact H0.
      - apply H3. lia. }
    split.
    + apply attributed_add_edge; assumption.
    + rewrite node_keys_add_edge_present by assumption. exact Hk.
Qed.

Lemma attributed_dimensions n k G :
  k + n <= length weights ->
  built data weights window_size k k G -> markers_attributed G ->
  markers_attributed
    (fold_left (dimension_graph data weights window_size) (seq k n) G).
Proof.
  revert k G. induction n as [|n IH]; intros k G Hk HB Hattr; cbn [seq fold_left].
  - exact Hattr.
  - apply IH; [lia | |].
    + apply built_dimension_graph; [lia | assumption].
    + apply attributed_dimension_graph; assumption.
Qed.

Lemma attributed_create_network G :
  create_network data weights window_size = inr G -> markers_attributed G.
Proof.
  rewrite (create_network_valid _ _ _ Hvalid). intros [= <-].
  apply (attributed_dimensions (ncols data) 0).
  - rewrite (valid_weights _ _ _ Hvalid). simpl. lia.
  - apply built_rows_graph.
  - intros nm Hnm. apply alist_get_Some_elem in Hnm.
    rewrite g_node_rows_graph in Hnm.
    apply list_elem_of_fmap in Hnm as (m & [= <-] & Hm).
    apply list_elem_of_fmap in Hm as (i & [=] & _).
Qed.

(** A node of the built graph is a data row exactly when it has no marker
    attribute, which is how the two functions downstream tell them apart. *)
Lemma built_is_marker G n a :
  create_network data weights window_size = inr G ->
  (n, a) ∈ g_node G -> is_marker a = negb (is_row n).
Proof.
  intros Hbuild Hin.
  pose proof (built_create_network _ _ _ Hvalid _ Hbuild) as HB.
  pose proof (attributed_create_network _ Hbuild) as Hattr.
  pose proof (alist_elem_get _ _ _ (wf_nodes _ (built_wf _ _ _ _ _ _ HB)) Hin) as Hget.
  destruct a as [a|]; cbn [is_marker].
  - destruct (built_attr _ _ _ _ _ _ HB _ _ Hget) as (_ & x & ->). reflexivity.
  - destruct n as [i|nm]; [reflexivity|]. exfalso. exact (Hattr nm Hget).
Qed.

(** The marker a row is attached to in a dimension is a marker node of that
    dimension. *)
Lemma built_host_attr G d i p :
  create_network data weights window_size = inr G ->
  d < ncols data -> rows data !! i = Some p ->
  exists v,
    alist_get (Marker (marker_name d (point_marker data window_size d p))) (g_node G)
      = Some (Some (MarkerAttr d v)).
Proof.
  intros Hbuild Hd Hp.
  pose proof (built_create_network _ _ _ Hvalid _ Hbuild) as HB.
  pose proof (attributed_create_network _ Hbuild) as Hattr.
  pose proof (built_assigned _ _ _ _ _ _ HB d i p Hd Hp) as [w Hw].
  apply (edge_weight_nodes _ _ _ _ (built_wf _ _ _ _ _ _ HB)) in Hw as [_ Hm].
  apply alist_get_is_Some in Hm as [[a|] Ha].
  - destruct (built_attr _ _ _ _ _ _ HB _ _ Ha) as (_ & x & [= Hx]).
    apply marker_name_inj in Hx as [Hdim _].
    destruct a as [da va]. cbn [m_dim] in Hdim. subst da. exists va. exact Ha.
  - exfalso. exact (Hattr _ Ha).
Qed.
End attributed.

Lemma count_rows_by_attr (l : list (node * node_attr)) :
  (forall n a, (n, a) ∈ l -> is_marker a = negb (is_row n)) ->
  length (filter (fun nd => negb (is_marker nd.2)) l) =
  length (filter is_row (map fst l)).
Proof.
  induction l as [|[n a] l IH]; intros H; [reflexivity|].
  assert (Hna : is_marker a = negb (is_row n)) by (apply H; left).
  assert (IH' : length (filter (fun nd => negb (is_marker nd.2)) l) =
                length (filter is_row (map fst l))).
  { apply IH. intros n' a' Hin. apply H. right. exact Hin. }
  cbn [map fst]. destruct (is_row n) eqn:Hn.
  - rewrite (filter_cons_True (fun nd => negb (is_marker nd.2)))
      by (cbn [snd]; rewrite Hna; exact I).
    rewrite (filter_cons_True is_row) by (rewrite Hn; exact I).
    cbn [length]. rewrite IH'. reflexivity.
  - rewrite (filter_cons_False (fun nd => negb (is_marker nd.2)))
      by (cbn [snd]; rewrite Hna; exact id).
    rewrite (filter_cons_False is_row) by (rewrite Hn; exact id).
    exact IH'.
Qed.

(** X6. On the graph built from a valid input [show_node_counts] reports
    exactly [R] data nodes, the remaining nodes as markers, and a count for
    each of the dimensions [0 .. D-1] and for no other. *)
Theorem built_node_counts data weights window_size G :
  valid_input data weights window_size ->
  create_network data weights window_size = inr G ->
  data_nodes (show_node_counts G) = length (rows data) /\
  marker_nodes (show_node_counts G) = length (g_node G) - length (rows data) /\
  (forall d, d < ncols data <->
     is_Some (alist_get d (markers_by_dim (show_node_counts G)))).
Proof.
  intros Hvalid Hbuild.
  pose proof (built_create_network _ _ _ Hvalid _ Hbuild) as HB.
  assert (Hdata : data_nodes (show_node_counts G) = length (rows data)).
  { change (data_nodes (show_node_counts G))
      with (length (filter (fun nd => negb (is_marker nd.2)) (g_node G))).
    rewrite count_rows_by_attr
      by (intros n a; apply (built_is_marker _ _ _ Hvalid _ _ _ Hbuild)).
    change (filter is_row (map fst (g_node G))) with (row_keys G).
    rewrite (built_rows _ _ _ _ _ _ HB), length_map, length_seq. reflexivity. }
  split; [exact Hdata|]. split.
  - assert (Hsum : data_nodes (show_node_counts G) + marker_nodes (show_node_counts G)
                   = length (g_node G)).
    { change (marker_nodes (show_node_counts G))
        with (foldr Nat.add 0 (map snd (fold_left count_step (g_node G) []))).
      rewrite sum_counts_fold. apply count_data_markers. }
    lia.
  - intros d. pose proof (show_node_counts_dim G d) as Hd. split.
    + intros HdD.
      pose proof (valid_rows _ _ _ Hvalid) as HR.
      destruct (lookup_lt_is_Some_2 (rows data) 0) as [p Hp]; [lia|].
      destruct (built_host_attr _ _ _ Hvalid G d 0 p Hbuild HdD Hp) as [v Hv].
      apply alist_get_Some_elem, dim_nodes_elem in Hv.
      destruct (alist_get d (markers_by_dim (show_node_counts G))) as [c|];
        [eexists; reflexivity|].
      exfalso. change (0 = length (dim_nodes G d)) in Hd.
      destruct (dim_nodes G d); [inversion Hv | discriminate].
    + intros [c Hc].
      change (markers_by_dim (show_node_counts G))
        with (fold_left count_step (g_node G) []) in Hc.
      apply count_fold_key in Hc as [[x Hx]|Hne]; [discriminate|].
      fold (dim_nodes G d) in Hne.
      destruct (dim_nodes G d) as [|[m v] l] eqn:Hl; [congruence|].
      assert (Hin : (m, v) ∈ dim_nodes G d) by (rewrite Hl; left).
      apply dim_nodes_elem in Hin.
      apply (alist_elem_get _ _ _ (wf_nodes _ (built_wf _ _ _ _ _ _ HB))) in Hin.
      destruct (built_attr _ _ _ _ _ _ HB _ _ Hin) as [Hlt _]. exact Hlt.
Qed.

Lemma built_node_counts_witness : data_nodes (show_node_counts scenario_expanded) = 4.
Proof.
  exact (proj1 (built_node_counts scenario_data [Qc_of_Z 1] (Qc_of_Z 2)
                  scenario_expanded scenario_valid scenario_built)).
Defined.

(** * Further properties of the ring collapser *)



Lemma Qc_pos_add (a w : Qc) : (0 ≤ a)%Qc -> (0 < w)%Qc -> (0 < a + w)%Qc.
Proof. intros Ha Hw. qc_unfold. lra. Qed.

Lemma edge_weight_init_pruned G a b : edge_weight (init_pruned G) a b = None.
Proof.
  unfold init_pruned. rewrite edge_weight_add_rows by apply wf_empty_graph.
  reflexivity.
Qed.

Lemma weight_of_nonneg Gp a b :
  (forall a b x, edge_weight Gp a b = Some x -> (0 < x)%Qc) ->
  (0 ≤ weight_of Gp a b)%Qc.
Proof.
  intros Hpos. unfold weight_of. destruct (edge_weight Gp a b) as [x|] eqn:Hx.
  - apply Qclt_le_weak. eapply Hpos. exact Hx.
  - apply Qcle_refl.
Qed.

Lemma positive_apply_steps steps Gp :
  wf_graph Gp -> (forall s, s ∈ steps -> (0 < s.2)%Qc) ->
  (forall a b x, edge_weight Gp a b = Some x -> (0 < x)%Qc) ->
  forall a b x,
    edge_weight (fold_left apply_step steps Gp) a b = Some x -> (0 < x)%Qc.
Proof.
  revert Gp. induction steps as [|s steps IH]; intros Gp Hwf Hs Hpos; [exact Hpos|].
  cbn [fold_left]. apply IH.
  - apply wf_accumulate_edge. exact Hwf.
  - intros s' Hs'. apply Hs. right. exact Hs'.
  - intros a b x. unfold apply_step. rewrite edge_weight_accumulate_edge by exact Hwf.
    destruct (same_pair s.1.1 s.1.2 a b); [|apply Hpos].
    intros [= <-].
    pose proof (weight_of_nonneg Gp a b Hpos) as H0.
    assert (Hw : (0 < s.2)%Qc) by (apply Hs; left).
    apply Qc_pos_add; assumption.
Qed.

Section built_steps.
Variables (data : ndarray) (weights : list Qc) (window_size : Qc) (G : Graph).
Hypothesis Hvalid : valid_input data weights window_size.
Hypothesis Hbuild : create_network data weights window_size = inr G.

(** Every accumulation of the collapser belongs to a dimension below [D] and
    carries that dimension's weight. *)
Lemma all_steps_origin s :
  s ∈ all_steps G ->
  exists d ms w,
    (d, ms) ∈ sorted_markers G /\ s ∈ dim_steps G ms /\
    d < ncols data /\ weights !! d = Some w /\ s.2 = w.
Proof.
  intros Hs. unfold all_steps in Hs.
  apply elem_of_flat_map in Hs as ([d ms] & Hdm & Hs). cbn [snd] in Hs.
  pose proof (built_create_network _ _ _ Hvalid _ Hbuild) as HB.
  assert (Hd : d < ncols data).
  { pose proof Hs as Hs'. unfold dim_steps in Hs'.
    apply elem_of_flat_map in Hs' as (idx & _ & Hidx).
    apply marker_steps_elem in Hidx as (m & v & first & rest & Hm & _).
    apply list_elem_of_lookup_2 in Hm.
    destruct (built_marker_node _ _ _ _ _ _ HB _ _ _ _ Hdm Hm) as [Hlt _]. exact Hlt. }
  destruct (lookup_lt_is_Some_2 weights d) as [w Hw].
  { rewrite (valid_weights _ _ _ Hvalid). exact Hd. }
  exists d, ms, w. split; [exact Hdm|]. split; [exact Hs|]. split; [exact Hd|].
  split; [exact Hw|].
  exact (dim_steps_weight _ _ _ _ Hvalid Hbuild d ms w s Hdm Hw Hs).
Qed.

Lemma all_steps_positive s : s ∈ all_steps G -> (0 < s.2)%Qc.
Proof.
  intros (d & ms & w & _ & _ & _ & Hw & ->)%all_steps_origin.
  pose proof (valid_positive _ _ _ Hvalid) as Hpos.
  rewrite Forall_forall in Hpos. apply Hpos.
  apply list_elem_of_In. eapply list_elem_of_lookup_2. exact Hw.
Qed.
End built_steps.

(** X8. For a valid input every edge of the reduced graph joins two data
    rows (possibly the same one), is seen with the same weight from both
    ends, and has a strictly positive weight. *)
Theorem reduced_graph_edges data weights window_size G a b x :
  valid_input data weights window_size ->
  create_network data weights window_size = inr G ->
  edge_weight (prune_markers_minimal G) a b = Some x ->
  (exists i j, a = Row i /\ b = Row j /\
     i < length (rows data) /\ j < length (rows data)) /\
  edge_weight (prune_markers_minimal G) b a = Some x /\
  (0 < x)%Qc.
Proof.
  intros Hvalid Hbuild Hx.
  pose proof (built_create_network _ _ _ Hvalid _ Hbuild) as HB.
  pose proof (built_wf _ _ _ _ _ _ HB) as Hwf.
  pose proof (wf_prune_markers_minimal G) as Hwfp.
  split; [|split].
  - destruct (edge_weight_nodes _ _ _ _ Hwfp Hx) as [Ha Hb].
    assert (Hkeys : node_keys (prune_markers_minimal G)
                    = map Row (seq 0 (length (rows data)))).
    { unfold node_keys, alist_keys. rewrite g_node_prune_markers_minimal by exact Hwf.
      rewrite map_map. cbn [fst]. rewrite map_id. apply (built_rows _ _ _ _ _ _ HB). }
    rewrite Hkeys in Ha, Hb.
    apply list_elem_of_fmap in Ha as (i & -> & Hi%elem_of_seq).
    apply list_elem_of_fmap in Hb as (j & -> & Hj%elem_of_seq).
    exists i, j. repeat split; lia.
  - rewrite <- (wf_sym _ Hwfp). exact Hx.
  - rewrite prune_markers_minimal_steps in Hx.
    refine (positive_apply_steps _ _ (wf_init_pruned G) _ _ a b x Hx).
    + intros s. apply (all_steps_positive _ _ _ _ Hvalid Hbuild).
    + intros a' b' x'. rewrite edge_weight_init_pruned. discriminate.
Qed.

Lemma reduced_graph_edges_witness :
  edge_weight (prune_markers_minimal scenario_expanded) (Row 1) (Row 0)
    = Some (Qc_of_Z 2) /\ (0 < Qc_of_Z 2)%Qc.
Proof.
  refine (proj2 (reduced_graph_edges scenario_data [Qc_of_Z 1] (Qc_of_Z 2)
            scenario_expanded (Row 0) (Row 1) (Qc_of_Z 2)
            scenario_valid scenario_built _)).
  decide_by_computation.
Defined.

(** ** Edges of the reduced graph are local *)



Section local_edges.
Variables (data : ndarray) (weights : list Qc) (window_size : Qc) (G : Graph).
Hypothesis Hvalid : valid_input data weights window_size.
Hypothesis Hwindow : (Q2Qc (1 # 10000) < window_size)%Qc.
Hypothesis Hbuild : create_network data weights window_size = inr G.

End local_edges.



(** ** Weights add up over the dimensions *)








Lemma group_fold_key l acc d ms :
  alist_get d (fold_left group_step l acc) = Some ms ->
  is_Some (alist_get d acc) \/ omap (select_dim d) l <> [].
Proof.
  revert acc. induction l as [|[n [a|]] l IH]; intros acc Hc; cbn [fold_left] in Hc.
  - left. eexists. exact Hc.
  - apply IH in Hc. unfold group_step in Hc. cbn [fst snd] in Hc.
    destruct (decide (m_dim a = d)) as [Hd|Hd].
    + right. cbn. unfold select_dim. cbn [snd]. rewrite decide_True by exact Hd.
      discriminate.
    + destruct Hc as [Hc|Hc].
      * left. rewrite alist_get_set in Hc.
        destruct (decide (d = m_dim a)) as [->|_]; [congruence | exact Hc].
      * right. cbn. unfold select_dim at 1. cbn [snd].
        rewrite decide_False by exact Hd. exact Hc.
  - apply IH in Hc. unfold group_step in Hc. cbn [snd] in Hc.
    destruct Hc as [Hc|Hc]; [left; exact Hc | right; exact Hc].
Qed.

Section dimension_order.
Variables (data : ndarray) (weights : list Qc) (window_size : Qc) (G : Graph).
Hypothesis Hvalid : valid_input data weights window_size.
Hypothesis Hbuild : create_network data weights window_size = inr G.

(** The collapser meets every dimension [0 .. D-1] exactly once. *)
Lemma sorted_markers_dimensions :
  sorted_markers G ≡ₚ
  map (fun d => (d, sort_by_value (dim_nodes G d))) (seq 0 (ncols data)).
Proof.
  pose proof (built_create_network _ _ _ Hvalid _ Hbuild) as HB.
  assert (Hkeys : NoDup (map fst (sorted_markers G))).
  { unfold sorted_markers. rewrite map_map. cbn [fst].
    change (map (fun x : nat * list (node * Qc) => x.1) (group_markers G))
      with (alist_keys (group_markers G)).
    rewrite group_markers_fold. apply group_fold_NoDup. apply NoDup_nil_2. }
  assert (Hin : forall d, d < ncols data ->
            (d, sort_by_value (dim_nodes G d)) ∈ sorted_markers G).
  { intros d Hd.
    pose proof (valid_rows _ _ _ Hvalid) as HR.
    destruct (lookup_lt_is_Some_2 (rows data) 0) as [p Hp]; [lia|].
    destruct (built_host_attr _ _ _ Hvalid G d 0 p Hbuild Hd Hp) as [v Hv].
    apply alist_get_Some_elem, dim_nodes_elem in Hv.
    unfold sorted_markers. apply list_elem_of_fmap. exists (d, dim_nodes G d).
    split; [reflexivity|]. apply group_markers_nonempty.
    intros Hnil. rewrite Hnil in Hv. inversion Hv. }
  apply NoDup_Permutation.
  - eapply (NoDup_fmap_1 fst). exact Hkeys.
  - apply (NoDup_fmap_2_strong (fun d => (d, sort_by_value (dim_nodes G d)))).
    + intros d d' _ _ [= -> _]. reflexivity.
    + apply NoDup_seq.
  - intros [d ms]. split.
    + intros Hdm. pose proof (sorted_markers_elem _ _ _ Hdm) as ->.
      apply list_elem_of_fmap. exists d. split; [reflexivity|].
      apply elem_of_seq. split; [lia|]. cbn [Nat.add].
      destruct (Nat.lt_ge_cases d (ncols data)) as [Hlt|Hge]; [exact Hlt|].
      exfalso.
      assert (Hne : dim_nodes G d <> []).
      { unfold sorted_markers in Hdm.
        apply list_elem_of_fmap in Hdm as ([d' ms'] & [= <- _] & Hg).
        rewrite group_markers_fold in Hg.
        apply alist_elem_get in Hg; [|apply group_fold_NoDup, NoDup_nil_2].
        apply group_fold_key in Hg as [[x Hx]|Hne]; [discriminate | exact Hne]. }
      destruct (dim_nodes G d) as [|[m v] l] eqn:Hl; [congruence|].
      assert (Hmv : (m, v) ∈ dim_nodes G d) by (rewrite Hl; left).
      apply dim_nodes_elem in Hmv.
      apply (alist_elem_get _ _ _ (wf_nodes _ (built_wf _ _ _ _ _ _ HB))) in Hmv.
      destruct (built_attr _ _ _ _ _ _ HB _ _ Hmv) as [Hlt _]. cbn in Hlt. lia.
    + intros (d' & [= -> ->] & Hd%elem_of_seq)%list_elem_of_fmap.
      apply Hin. lia.
Qed.
End dimension_order.



(** ** Rings of three or more rows *)

Lemma succ_mod_cases n k :
  k < n -> (k + 1) mod n = if decide (k + 1 = n) then 0 else k + 1.
Proof.
  intros Hk. destruct (decide (k + 1 = n)) as [->|Hne].
  - apply Nat.Div0.mod_same.
  - apply Nat.mod_small. lia.
Qed.

Lemma ring_count_le_1 (nbrs : list node) (a b : node) :
  NoDup nbrs -> 3 <= length nbrs -> ring_count nbrs a b <= 1.
Proof.
  intros Hnd Hlen. unfold ring_count. apply filter_at_most_one; [apply NoDup_seq|].
  intros x y Hx%elem_of_seq Hy%elem_of_seq Px Py.
  unfold same_pair in Px, Py.
  apply bool_decide_eq_true_1 in Px. apply bool_decide_eq_true_1 in Py.
  assert (Hx' : (x + 1) mod length nbrs < length nbrs)
    by (apply Nat.mod_upper_bound; lia).
  assert (Hy' : (y + 1) mod length nbrs < length nbrs)
    by (apply Nat.mod_upper_bound; lia).
  pose proof (succ_mod_cases (length nbrs) x ltac:(lia)) as Ex.
  pose proof (succ_mod_cases (length nbrs) y ltac:(lia)) as Ey.
  destruct Px as [[Ha Hb]|[Ha Hb]], Py as [[Ha' Hb']|[Ha' Hb']].
  - apply (nth_NoDup_inj nbrs); [assumption | lia | lia | congruence].
  - assert (E1 : x = (y + 1) mod length nbrs)
      by (apply (nth_NoDup_inj nbrs); [assumption | lia | lia | congruence]).
    assert (E2 : (x + 1) mod length nbrs = y)
      by (apply (nth_NoDup_inj nbrs); [assumption | lia | lia | congruence]).
    rewrite Ex in E2. rewrite Ey in E1.
    destruct (decide (x + 1 = length nbrs)), (decide (y + 1 = length nbrs)); lia.
  - assert (E1 : (x + 1) mod length nbrs = y)
      by (apply (nth_NoDup_inj nbrs); [assumption | lia | lia | congruence]).
    assert (E2 : x = (y + 1) mod length nbrs)
      by (apply (nth_NoDup_inj nbrs); [assumption | lia | lia | congruence]).
    rewrite Ex in E1. rewrite Ey in E2.
    destruct (decide (x + 1 = length nbrs)), (decide (y + 1 = length nbrs)); lia.
  - apply (nth_NoDup_inj nbrs); [assumption | lia | lia | congruence].
Qed.

(** X11. When the ring of a marker has three or more (distinct) rows, every
    pair of rows receives the marker's weight at most once from the ring, and
    each pair of consecutive rows, the last and the first included, receives
    it exactly once: only a ring of two rows doubles the weight. *)
Theorem ring_of_three_or_more (nbrs : list node) (w : Qc) (Gp : Graph) :
  wf_graph Gp -> NoDup nbrs -> 3 <= length nbrs ->
  (forall a b, ring_count nbrs a b <= 1) /\
  (forall a b,
     ring_count nbrs a b = 0 ->
     weight_of (connect_ring nbrs w Gp) a b = weight_of Gp a b) /\
  (forall k, k < length nbrs ->
     let a := nth k nbrs (Row 0) in
     let b := nth ((k + 1) mod length nbrs) nbrs (Row 0) in
     a <> b /\
     has_edge (connect_ring nbrs w Gp) a b = true /\
     weight_of (connect_ring nbrs w Gp) a b = (weight_of Gp a b + w)%Qc).
Proof.
  intros Hwf Hnd Hlen. split; [|split].
  - intros a b. apply ring_count_le_1; assumption.
  - intros a b H0. rewrite weight_of_connect_ring, H0, Qc_of_nat_0 by exact Hwf. ring.
  - intros k Hk. cbv zeta.
    assert (Hk' : (k + 1) mod length nbrs < length nbrs)
      by (apply Nat.mod_upper_bound; lia).
    split; [|split].
    + intros Heq. apply (nth_NoDup_inj nbrs) in Heq; [|assumption..].
      rewrite succ_mod_cases in Heq by exact Hk.
      destruct (decide (k + 1 = length nbrs)); lia.
    + rewrite connect_ring_steps.
      apply (has_edge_apply_steps (ring_steps nbrs w) Gp
               (nth k nbrs (Row 0), nth ((k + 1) mod length nbrs) nbrs (Row 0), w) Hwf).
      unfold ring_steps. apply list_elem_of_fmap. exists k.
      split; [reflexivity | apply elem_of_seq; lia].
    + rewrite weight_of_connect_ring by exact Hwf.
      assert (Hc : ring_count nbrs (nth k nbrs (Row 0))
                     (nth ((k + 1) mod length nbrs) nbrs (Row 0)) = 1).
      { pose proof (ring_count_le_1 nbrs (nth k nbrs (Row 0))
                      (nth ((k + 1) mod length nbrs) nbrs (Row 0)) Hnd Hlen) as Hle.
        assert (Hin : k ∈ filter
                  (fun j => same_pair (nth j nbrs (Row 0))
                              (nth ((j + 1) mod length nbrs) nbrs (Row 0))
                              (nth k nbrs (Row 0))
                              (nth ((k + 1) mod length nbrs) nbrs (Row 0)) = true)
                  (seq 0 (length nbrs))).
        { apply list_elem_of_filter. split; [|apply elem_of_seq; lia].
          unfold same_pair. apply bool_decide_eq_true_2. left. split; reflexivity. }
        unfold ring_count in *. destruct (filter _ _); [inversion Hin|].
        cbn [length] in *. lia. }
      rewrite Hc, Qc_of_nat_S, Qc_of_nat_0. ring.
Qed.

Lemma ring_of_three_or_more_witness :
  weight_of (connect_ring [Row 0; Row 1; Row 2] (Qc_of_Z 5) empty_graph) (Row 2) (Row 0)
  = (weight_of empty_graph (Row 2) (Row 0) + Qc_of_Z 5)%Qc.
Proof.
  refine (proj2 (proj2 (proj2 (proj2
    (ring_of_three_or_more [Row 0; Row 1; Row 2] (Qc_of_Z 5) empty_graph
       wf_empty_graph _ _)) 2 _))).
  - decide_by_computation.
  - simpl. lia.
  - simpl. lia.
Defined.

(** * Which exception an invalid input raises *)







(** * A negative window *)






Section negative_division.
Variables (x window_size : Qc).
Hypothesis Hneg : (window_size < 0)%Qc.






End negative_division.





Section negative_dimension.
Variables (data : ndarray) (weights : list Qc) (window_size : Qc).
Hypothesis Hneg : (window_size < 0)%Qc.
Hypothesis HR : 1 <= length (rows data).







End negative_dimension.



(** ** The reduced graph has bounded degree *)

Lemma length_alist_set (k : node) (w : Qc) (l : list (node * Qc)) :
  length (alist_set k w l) <= S (length l) /\
  (k ∈ alist_keys l -> length (alist_set k w l) = length l).
Proof.
  induction l as [|[k' w'] l [IH1 IH2]]; cbn [alist_set length].
  - split; [lia|]. intros H. inversion H.
  - destruct (decide (k = k')) as [->|Hne]; cbn [length]; [split; lia|].
    split; [lia|]. intros [?|Hin]%elem_of_cons; [cbn in *; congruence|].
    rewrite IH2 by exact Hin. reflexivity.
Qed.

Lemma degree_set_edge G u v w r :
  length (adj_of (set_edge G u v w) r) <=
  length (adj_of G r) + (if touches r (u, v, w) then 1 else 0).
Proof.
  unfold set_edge, touches. cbn [fst snd]. rewrite !adj_of_adj_set.
  destruct (decide (r = v)) as [->|Hv].
  - rewrite bool_decide_eq_true_2 by (right; reflexivity).
    destruct (decide (v = u)) as [->|Hu].
    + rewrite (proj2 (length_alist_set u w _))
        by (apply alist_keys_set_elem; left; reflexivity).
      pose proof (proj1 (length_alist_set u w (adj_of G u))). lia.
    + pose proof (proj1 (length_alist_set u w (adj_of G v))). lia.
  - destruct (decide (r = u)) as [->|Hu].
    + rewrite bool_decide_eq_true_2 by (left; reflexivity).
      pose proof (proj1 (length_alist_set v w (adj_of G u))). lia.
    + lia.
Qed.

Lemma degree_accumulate_edge Gp u v w r :
  wf_graph Gp ->
  length (adj_of (accumulate_edge Gp u v w) r) <=
  length (adj_of Gp r) + (if touches r (u, v, w) then 1 else 0).
Proof.
  intros Hwf. unfold accumulate_edge. destruct (has_edge Gp u v).
  - etrans; [apply degree_set_edge|]. unfold touches. cbn [fst snd]. lia.
  - unfold add_edge. etrans; [apply degree_set_edge|].
    rewrite !adj_of_add_node by (try apply wf_add_node; exact Hwf).
    unfold touches. cbn [fst snd]. lia.
Qed.

Lemma touch_count_cons r s steps :
  touch_count r (s :: steps) = (if touches r s then 1 else 0) + touch_count r steps.
Proof.
  unfold touch_count. destruct (touches r s) eqn:Ht.
  - rewrite filter_cons_True by exact Ht. reflexivity.
  - rewrite filter_cons_False by congruence. reflexivity.
Qed.

Lemma degree_apply_steps steps Gp r :
  wf_graph Gp ->
  length (neighbors (fold_left apply_step steps Gp) r) <=
  length (neighbors Gp r) + touch_count r steps.
Proof.
  revert Gp. induction steps as [|s steps IH]; intros Gp Hwf; cbn [fold_left].
  - unfold touch_count. rewrite filter_nil. cbn. lia.
  - etrans; [apply IH, wf_accumulate_edge, Hwf|].
    rewrite touch_count_cons. unfold apply_step.
    pose proof (degree_accumulate_edge Gp s.1.1 s.1.2 s.2 r Hwf) as Hd.
    unfold neighbors, alist_keys in *. rewrite !length_map in *.
    destruct s as [[u v] w]. cbn [fst snd] in *. lia.
Qed.

Lemma touch_count_flat_map {A} (f : A -> list step) (l : list A) r c :
  (forall x, x ∈ l -> touch_count r (f x) <= c) ->
  touch_count r (flat_map f l) <= c * length l.
Proof.
  induction l as [|x l IH]; intros H; cbn [flat_map length].
  - unfold touch_count. rewrite filter_nil. cbn. lia.
  - rewrite touch_count_app.
    pose proof (H x ltac:(left)).
    pose proof (IH (fun y Hy => H y ltac:(right; exact Hy))). lia.
Qed.

(** X14. The reduced graph is sparse: for a valid input every row has at
    most [4 * D] neighbours (itself included when it has a self-loop),
    whatever the number of rows, because each dimension touches a row with at
    most two ring steps and two bridges. *)
Theorem reduced_degree_bound data weights window_size G r :
  valid_input data weights window_size ->
  create_network data weights window_size = inr G ->
  touch_count r (all_steps G) <= 4 * ncols data /\
  length (neighbors (prune_markers_minimal G) r) <= 4 * ncols data.
Proof.
  intros Hvalid Hbuild.
  pose proof (built_create_network _ _ _ Hvalid _ Hbuild) as HB.
  pose proof (built_wf _ _ _ _ _ _ HB) as Hwf.
  assert (Hcount : touch_count r (all_steps G) <= 4 * ncols data).
  { unfold all_steps.
    assert (Hlen : length (sorted_markers G) = ncols data).
    { rewrite (sorted_markers_dimensions _ _ _ _ Hvalid Hbuild),
        length_map, length_seq. reflexivity. }
    rewrite <- Hlen. apply touch_count_flat_map.
    intros [d ms] Hdm. cbn [snd]. rewrite dim_steps_chain.
    apply chain_touch_count; [exact Hwf | |].
    - eapply sorted_markers_NoDup; eassumption.
    - intros m m'. eapply built_host_unique; eassumption. }
  split; [exact Hcount|].
  rewrite prune_markers_minimal_steps.
  etrans; [apply degree_apply_steps, wf_init_pruned|].
  assert (Hnil : neighbors (init_pruned G) r = []).
  { destruct (neighbors (init_pruned G) r) as [|v l] eqn:Hn; [reflexivity|].
    assert (Hv : v ∈ neighbors (init_pruned G) r) by (rewrite Hn; left).
    apply neighbors_elem in Hv as [x Hx]. rewrite edge_weight_init_pruned in Hx.
    discriminate. }
  rewrite Hnil. cbn [length]. lia.
Qed.

Lemma reduced_degree_bound_witness :
  length (neighbors (prune_markers_minimal scenario_expanded) (Row 0)) <= 4 * 1.
Proof.
  exact (proj2 (reduced_degree_bound scenario_data [Qc_of_Z 1] (Qc_of_Z 2)
                  scenario_expanded (Row 0) scenario_valid scenario_built)).
Defined.

(** ** Collapsing a graph without markers *)

(** No node carries marker attributes. *)
Definition no_attrs (G : Graph) : Prop :=
  forall n a, (n, a) ∈ g_node G -> a = None.

Lemma alist_set_elem (k : node) (v : node_attr) (l : list (node * node_attr)) x :
  x ∈ alist_set k v l -> x = (k, v) \/ x ∈ l.
Proof.
  induction l as [|[k' v'] l IH]; cbn [alist_set].
  - intros [->|H]%elem_of_cons; [left; reflexivity | inversion H].
  - destruct (decide (k = k')) as [->|Hne].
    + intros [->|H]%elem_of_cons; [left; reflexivity | right; right; exact H].
    + intros [->|H]%elem_of_cons; [right; left|].
      destruct (IH H) as [->|Hin]; [left; reflexivity | right; right; exact Hin].
Qed.

Lemma no_attrs_add_node G n : no_attrs G -> no_attrs (add_node G n None).
Proof.
  intros H m a. unfold add_node. destruct (alist_get n (g_node G)); [apply H|].
  cbn [g_node]. intros [[= -> ->]|Hin]%alist_set_elem; [reflexivity|].
  eapply H. exact Hin.
Qed.

Lemma no_attrs_accumulate_edge Gp u v w :
  no_attrs Gp -> no_attrs (accumulate_edge Gp u v w).
Proof.
  intros H. unfold accumulate_edge, no_attrs. destruct (has_edge Gp u v).
  - rewrite g_node_set_edge. exact H.
  - rewrite g_node_add_edge. apply no_attrs_add_node, no_attrs_add_node, H.
Qed.

Lemma no_attrs_prune_markers_minimal G : no_attrs (prune_markers_minimal G).
Proof.
  rewrite prune_markers_minimal_steps. apply fold_left_inv.
  - unfold init_pruned. apply fold_left_inv.
    + intros n a Hin. inversion Hin.
    + intros Gp n _ HGp. apply no_attrs_add_node. exact HGp.
  - intros Gp s _ HGp. apply no_attrs_accumulate_edge. exact HGp.
Qed.

Lemma no_attrs_sorted_markers G : no_attrs G -> sorted_markers G = [].
Proof.
  intros H. unfold sorted_markers. rewrite group_markers_fold.
  assert (Hg : fold_left group_step (g_node G) [] = []); [|rewrite Hg; reflexivity].
  apply fold_left_inv; [reflexivity|].
  intros acc [n a] Hin ->. rewrite (H n a Hin). reflexivity.
Qed.

(** X15. The collapser creates edges from marker nodes only and carries no
    existing edge over.  A graph in which no node has marker attributes is
    reduced to its integer nodes without any edge; in particular collapsing
    an already collapsed graph keeps its nodes and erases all its edges. *)
Theorem collapse_needs_markers (G : Graph) :
  (no_attrs G ->
   prune_markers_minimal G = init_pruned G /\
   forall a b, has_edge (prune_markers_minimal G) a b = false) /\
  node_keys (prune_markers_minimal (prune_markers_minimal G))
    = row_keys (prune_markers_minimal G) /\
  (forall a b,
     has_edge (prune_markers_minimal (prune_markers_minimal G)) a b = false) /\
  edges (prune_markers_minimal (prune_markers_minimal G)) = [].
Proof.
  assert (Hgen : forall G', no_attrs G' ->
            prune_markers_minimal G' = init_pruned G' /\
            forall a b, has_edge (prune_markers_minimal G') a b = false).
  { intros G' H.
    assert (Heq : prune_markers_minimal G' = init_pruned G').
    { rewrite prune_markers_minimal_steps. unfold all_steps.
      rewrite (no_attrs_sorted_markers G' H). reflexivity. }
    split; [exact Heq|]. intros a b. rewrite Heq.
    destruct (has_edge (init_pruned G') a b) eqn:He; [|reflexivity].
    apply has_edge_true in He as [x Hx]. rewrite edge_weight_init_pruned in Hx.
    discriminate. }
  pose proof (Hgen _ (no_attrs_prune_markers_minimal G)) as [Heq Hnone].
  split; [apply Hgen|]. split; [|split].
  - unfold node_keys at 1, alist_keys.
    rewrite g_node_prune_markers_minimal by apply wf_prune_markers_minimal.
    rewrite map_map. cbn [fst]. apply map_id.
  - exact Hnone.
  - assert (Hadj : forall n nbrs,
              (n, nbrs) ∈ g_adj (prune_markers_minimal (prune_markers_minimal G)) ->
              nbrs = []).
    { intros n nbrs Hin. destruct nbrs as [|[v x] l]; [reflexivity|]. exfalso.
      pose proof (wf_prune_markers_minimal (prune_markers_minimal G)) as Hwf.
      assert (Hnd : NoDup (alist_keys
                (g_adj (prune_markers_minimal (prune_markers_minimal G)))))
        by (rewrite (wf_keys _ Hwf); apply (wf_nodes _ Hwf)).
      pose proof (alist_elem_get _ _ _ Hnd Hin) as Hget.
      specialize (Hnone n v). unfold has_edge, adj_of, alist_mem in Hnone.
      rewrite Hget in Hnone. cbn in Hnone. rewrite decide_True in Hnone by reflexivity.
      discriminate. }
    unfold edges. revert Hadj.
    generalize (g_adj (prune_markers_minimal (prune_markers_minimal G))).
    generalize (@nil node). intros seen adj. revert seen.
    induction adj as [|[n nbrs] adj IH]; intros seen Hadj; [reflexivity|].
    cbn [edges_from]. rewrite (Hadj n nbrs) by left. rewrite filter_nil. cbn [map app].
    apply IH. intros n' nbrs' Hin. eapply Hadj. right. exact Hin.
Qed.

Lemma collapse_needs_markers_witness :
  prune_markers_minimal (rows_graph scenario_data) = init_pruned (rows_graph scenario_data) /\
  forall a b, has_edge (prune_markers_minimal (rows_graph scenario_data)) a b = false.
Proof.
  refine (proj1 (collapse_needs_markers (rows_graph scenario_data)) _).
  intros n a Hin. rewrite g_node_rows_graph in Hin.
  apply list_elem_of_fmap in Hin as (m & [= _ ->] & _). reflexivity.
Defined.

(** * The rows of a ring *)









Section ring_rows.
Variables (data : ndarray) (weights : list Qc) (window_size : Qc).









End ring_rows.




(** * The edges of the reduced graph *)




Section reduced_edges.
Variables (data : ndarray) (weights : list Qc) (window_size : Qc) (G : Graph).
Hypothesis Hvalid : valid_input data weights window_size.
Hypothesis Hwindow : (Q2Qc (1 # 10000) < window_size)%Qc.
Hypothesis Hbuild : create_network data weights window_size = inr G.











End reduced_edges.








(** * The marker chain of the expanded graph *)



Section chain_edges.
Variables (data : ndarray) (weights : list Qc) (window_size : Qc).


End chain_edges.



(** * Marker keys *)

(** X20. The key [f'{dim},{value:.4f}'] of a marker determines its
    dimension, the sign of its value and the value rounded to four decimals,
    and nothing else: two markers share a node exactly when these agree, and
    then their values differ by at most 0.0001. *)
Theorem marker_key_collisions (d d' : nat) (x y : Qc) :
  (marker_name d x = marker_name d' y <->
   d = d' /\ ((x < 0)%Qc <-> (y < 0)%Qc) /\ scaled4 x = scaled4 y) /\
  (marker_name d x = marker_name d' y ->
   (x - y ≤ Q2Qc (1 # 10000))%Qc /\ (y - x ≤ Q2Qc (1 # 10000))%Qc).
Proof.
  split.
  - split.
    + intros Heq. apply marker_name_inj in Heq as [Hd Hf].
      apply fmt4_inj in Hf. tauto.
    + intros (-> & Hsign & Hsc). unfold marker_name. f_equal. f_equal.
      unfold fmt4. fold (scaled4 x) (scaled4 y). rewrite Hsc.
      destruct (decide (x < 0)%Qc), (decide (y < 0)%Qc); try tauto; reflexivity.
  - intros Heq. apply marker_name_inj in Heq as [_ Hf]. split.
    + destruct (Qclt_le_dec (Q2Qc (1 # 10000)) (x - y)) as [Hlt|Hle]; [|exact Hle].
      exfalso. apply (fmt4_apart y x); [|symmetry; exact Hf].
      qc_unfold. lra.
    + destruct (Qclt_le_dec (Q2Qc (1 # 10000)) (y - x)) as [Hlt|Hle]; [|exact Hle].
      exfalso. apply (fmt4_apart x y); [|exact Hf].
      qc_unfold. lra.
Qed.

(** * One window over the whole range *)




